(** * DocShield: the watermark pipeline of [src/lib/watermark.ts]

    A shallow embedding of the image-compositing code and the properties
    of it that the specification states.

    Numbers.  The layout arithmetic (dimensions, positions, font sizes) is
    carried out on exact rationals [Q]: the decimal literals of the source
    ([1.1], [0.55], ...) denote the rationals they spell.  The per-pixel
    arithmetic of [applyGrayscaleMask], whose operands are bytes, is carried
    out in binary64 ([PrimFloat]), as JavaScript does, and stored through the
    conversion of [Uint8ClampedArray].

    Host.  What the browser supplies ([Math.sin], [Math.random], [Math.PI],
    [String.prototype.toUpperCase], the rasteriser behind [getImageData]) is
    the record [Host], a variable of the section [Pipeline]. *)

From Stdlib Require Import ZArith QArith Qround Qminmax Lqa Lia Bool.
From Stdlib Require Import Strings.Byte Strings.String Strings.Ascii.
From Stdlib Require Uint63.
From Stdlib Require Import Floats.PrimFloat Floats.FloatOps Floats.SpecFloat.
From stdpp Require Import base list.

Local Open Scope Q_scope.
#[local] Set Warnings "-inexact-float".

(** ** JavaScript numbers and the integer conversions of the DOM *)

Module Js.

(** [Math.round]: the nearest integer, a tie going up. *)
Definition round (x : Q) : Z := Qfloor (x + 0.5).

(** [Math.floor]. *)
Definition floor (x : Q) : Z := Qfloor x.

(** [a > b] on numbers. *)
Definition gt (a b : Q) : bool := negb (Qle_bool a b).

(** [a < b] on numbers. *)
Definition lt (a b : Q) : bool := negb (Qle_bool b a).

(** The integer part, towards zero. *)
Definition trunc (x : Q) : Z :=
  if Qle_bool 0 x then Qfloor x else (- Qfloor (- x))%Z.

(** WebIDL's conversion to [unsigned long], which every assignment to
    [canvas.width] and [canvas.height] goes through: the fraction is
    dropped and the result taken modulo [2^32]. *)
Definition to_unsigned_long (x : Q) : Z := (trunc x mod 2 ^ 32)%Z.

(** [x / y] for [y >= 0], or [None] for the [+Infinity] of [y = 0]
    (the numerators of this program are positive constants). *)
Definition div_pos (x y : Q) : option Q :=
  if Qeq_bool y 0 then None else Some (x / y).

(** [Math.min] of two such quotients.  Both are infinite only when both
    divisors are zero, which the callers exclude; the last case is then
    never reached. *)
Definition min_ext (a b : option Q) : Q :=
  match a, b with
  | Some a, Some b => Qmin a b
  | Some a, None => a
  | None, Some b => b
  | None, None => 0
  end.

(** The values of [x] in [for (let x = 0; x < bound; x++)]:
    [0, 1, ..., ceil bound - 1]. *)
Definition count_below (bound : Q) : list Z :=
  List.map Z.of_nat (seq 0 (Z.to_nat (Qceiling bound))).

(** The values of [x] in [for (x = start; x <= bound; x += step)] for a
    positive [step]: [start + k * step] for
    [k = 0, ..., floor ((bound - start) / step)]. *)
Definition steps_upto (start step bound : Q) : list Q :=
  if Qle_bool start bound then
    List.map (fun k => start + inject_Z (Z.of_nat k) * step)
             (seq 0 (Z.to_nat (Qfloor ((bound - start) / step)) + 1))
  else [].

End Js.

(** ** Surfaces and drawing operations *)

(** [HTMLImageElement]: [width] and [height] are [unsigned long]. *)
Record Image := { img_width : N; img_height : N }.

(** The integer dimensions of an [HTMLCanvasElement]. *)
Record Canvas := { cwidth : Z; cheight : Z }.

(** [document.createElement("canvas")]: 300 by 150 until resized. *)
Definition new_canvas : Canvas := {| cwidth := 300; cheight := 150 |}.

Inductive Color :=
| Black
| White
| Rgba (r g b : Z) (a : Q).

(** [bold ${px}px Arial] or [${px}px Arial]. *)
Record Font := { bold : bool; px : Q }.

(** ** Strings: sequences of UTF-16 code units *)

Definition jsstring := list N.

Definition of_string (s : string) : jsstring :=
  List.map N_of_ascii (list_ascii_of_string s).

(** The characters matched by [\s] and removed by [trim]: ECMAScript's
    white space and line terminators. *)
Definition is_space (c : N) : bool :=
  ((9 <=? c) && (c <=? 13) || (c =? 32) || (c =? 160) || (c =? 5760)
   || (8192 <=? c) && (c <=? 8202) || (c =? 8232) || (c =? 8233)
   || (c =? 8239) || (c =? 8287) || (c =? 12288) || (c =? 65279))%N.

Fixpoint trim_start (s : jsstring) : jsstring :=
  match s with
  | c :: s' => if is_space c then trim_start s' else s
  | [] => []
  end.

(** [s.trim()] *)
Definition trim (s : jsstring) : jsstring :=
  rev (trim_start (rev (trim_start s))).

(** [s.split(/\s+/)]: the pieces between the maximal runs of white space;
    [in_run] tells that the previous character was white space.  The result
    is never empty: the empty string splits into one empty piece. *)
Fixpoint split_from (in_run : bool) (s : jsstring) : list jsstring :=
  match s with
  | [] => [[]]
  | c :: s' =>
      if is_space c then
        if in_run then split_from true s' else [] :: split_from true s'
      else
        match split_from false s' with
        | w :: ws => (c :: w) :: ws
        | [] => [[c]]
        end
  end.

Definition split_spaces (s : jsstring) : list jsstring := split_from false s.

(** A string is falsy exactly when it is empty. *)
Definition truthy (s : jsstring) : bool :=
  match s with [] => false | _ :: _ => true end.

Definition SPACE : N := 32.

(** ** [wrapText] *)

(** [testLine.length * charWidth], the estimated width of a line. *)
Definition estWidth (charWidth : Q) (line : jsstring) : Q :=
  inject_Z (Z.of_nat (length line)) * charWidth.

(** The body of [words.forEach]: the state is [(lines, currentLine)]. *)
Definition wrapStep (maxWidth charWidth : Q)
    (st : list jsstring * jsstring) (word : jsstring)
  : list jsstring * jsstring :=
  let '(lines, currentLine) := st in
  let testLine :=
    if truthy currentLine then currentLine ++ SPACE :: word else word in
  let testWidth := estWidth charWidth testLine in
  if Js.gt testWidth maxWidth then
    ((if truthy currentLine then lines ++ [currentLine] else lines), word)
  else (lines, testLine).

(** The loop over the words and the final push. *)
Definition wrapWords (maxWidth charWidth : Q) (words : list jsstring)
  : list jsstring :=
  let '(lines, currentLine) :=
    fold_left (wrapStep maxWidth charWidth) words ([], []) in
  if truthy currentLine then lines ++ [currentLine] else lines.

Definition wrapText (text : jsstring) (maxWidth fontSize : Q)
  : list jsstring :=
  let words := split_spaces (trim text) in
  let charWidth := fontSize * 0.55 in
  wrapWords maxWidth charWidth words.

(** *** Lines as groups of words

    The line that [wrapText] builds from the words [g] is [join g]; the
    loop is followed here on the groups themselves, the newest first. *)

Fixpoint join (g : list jsstring) : jsstring :=
  match g with
  | [] => []
  | w :: g' =>
      match g' with
      | [] => w
      | _ :: _ => w ++ SPACE :: join g'
      end
  end.

Definition groupStep (maxWidth charWidth : Q)
    (rgs : list (list jsstring)) (word : jsstring) : list (list jsstring) :=
  match rgs with
  | [] => [[word]]
  | cur :: done =>
      if Js.gt (estWidth charWidth (join cur ++ SPACE :: word)) maxWidth
      then [word] :: cur :: done
      else (cur ++ [word]) :: done
  end.

(** The state [(lines, currentLine)] that a list of groups stands for. *)
Definition stateOf (rgs : list (list jsstring)) : list jsstring * jsstring :=
  match rgs with
  | [] => ([], [])
  | cur :: done => (List.map join (rev done), join cur)
  end.


(** ** Pixel data and the grayscale arithmetic (binary64) *)

Module Pixel.

(** A channel read from a [Uint8ClampedArray], as a number. *)
Definition of_byte (b : byte) : float :=
  PrimFloat.of_uint63 (Uint63.of_Z (Z.of_N (Byte.to_N b))).

Definition byte_of_Z (n : Z) : byte :=
  match Byte.of_N (Z.to_N n) with Some b => b | None => x00 end.

(** [0.3 * r + 0.59 * g + 0.11 * b], evaluated left to right. *)
Definition luminosity (r g b : byte) : float :=
  (0.3 * of_byte r + 0.59 * of_byte g + 0.11 * of_byte b)%float.

(** The luminosity of three array reads.  A read past the end of a typed
    array is [undefined], and the sum is then [NaN]. *)
Definition gray_of (r g b : option byte) : float :=
  match r, g, b with
  | Some r, Some g, Some b => luminosity r g b
  | _, _, _ => PrimFloat.nan
  end.

(** ECMAScript's [ToUint8Clamp], the conversion applied by every store
    into a [Uint8ClampedArray]: [NaN] gives 0, the number is clamped to
    [0, 255] and rounded to the nearest integer, a tie going to the even
    one.  The comparisons are made on the exact value [m * 2^e]. *)
Definition toUint8Clamp (x : float) : byte :=
  match Prim2SF x with
  | S754_finite false m e =>
      let clamped : Q := inject_Z (Zpos m) * Qpower 2 e in
      if Qle_bool 255 clamped then xff
      else
        let f := Qfloor clamped in
        if Js.lt clamped (inject_Z f + 0.5) then byte_of_Z f
        else if Js.gt clamped (inject_Z f + 0.5) then byte_of_Z (f + 1)
        else if Z.even f then byte_of_Z f else byte_of_Z (f + 1)
  | S754_infinity false => xff
  | _ => x00
  end.

(** [v === 0] for an array read [v]. *)
Definition is_zero (v : option byte) : bool :=
  match v with Some b => Byte.eqb b x00 | None => false end.

(** The body of the loop of [applyGrayscaleMask] at index [i].  A store
    past the end of a typed array is ignored, as is the insertion of
    stdpp there. *)
Definition grayStep (maskData data : list byte) (i : nat) : list byte :=
  if is_zero (maskData !! i) then
    let gray :=
      toUint8Clamp (gray_of (data !! i) (data !! (i + 1)%nat) (data !! (i + 2)%nat)) in
    <[(i + 2)%nat := gray]> (<[(i + 1)%nat := gray]> (<[i := gray]> data))
  else data.

(** [n] more rounds of [for (...; i += 4)] from index [i]. *)
Fixpoint grayLoop (n i : nat) (maskData data : list byte) : list byte :=
  match n with
  | O => data
  | S n' => grayLoop n' (i + 4) maskData (grayStep maskData data i)
  end.

(** The whole loop: [i = 0, 4, 8, ...] while [i < data.length], that is
    [ceil (length / 4)] rounds. *)
Definition grayMask (maskData data : list byte) : list byte :=
  grayLoop ((length data + 3) / 4)%nat 0 maskData data.

(** *** The loop, index by index

    What a store of [g] leaves where [o] was read, and what the loop leaves
    at index [j] of the data: the gray of the pixel [j] lies in, when the
    mask is black there and [j] is not its alpha channel. *)

Definition over (o : option byte) (g : byte) : option byte :=
  match o with Some _ => Some g | None => None end.

Definition grayAt (maskData data : list byte) (j : nat) : option byte :=
  let b := (4 * (j / 4))%nat in
  if is_zero (maskData !! b) && (j mod 4 <? 3)%nat then
    over (data !! j)
         (toUint8Clamp
            (gray_of (data !! b) (data !! (b + 1)%nat) (data !! (b + 2)%nat)))
  else data !! j.

End Pixel.

(** The calls made on a 2D context, with the styles in force at the call.
    A canvas used as the source of [drawImage] is given by its dimensions and
    what was drawn on it. *)
Inductive Op :=
| FillRect (fillStyle : Color) (x y w h : Q)
| ClearRect (x y w h : Q)
| DrawImage (image : Source) (dx dy dw dh : Q)
| DrawImageSlice (image : Source) (sx sy sw sh dx dy dw dh : Q)
| FillText (font : Font) (fillStyle : Color) (text : jsstring) (x y : Q)
| TextPattern (width height : Q) (text : jsstring) (fontSize : Q) (color : Color)
| Stroke (strokeStyle : Color) (lineWidth : Q) (path : list (Q * Q))
| PutImageData (data : list byte)
with Source :=
| ImageSource (img : Image)
| CanvasSource (canvas : Canvas) (drawn : list Op).

(** A canvas together with what has been drawn on it since it was sized. *)
Record Surface := { s_canvas : Canvas; s_drawn : list Op }.

Definition as_source (s : Surface) : Source :=
  CanvasSource (s_canvas s) (s_drawn s).

(** What the browser supplies. *)
Record Host := {
  sin : Q -> Q;                      (* Math.sin *)
  sqrt : Q -> Q;                     (* Math.sqrt *)
  PI : Q;                            (* Math.PI *)
  random : nat -> Q;                 (* the successive values of Math.random() *)
  toUpperCase : jsstring -> jsstring;
  (* ctx.getImageData(0, 0, sw, sh).data: the RGBA bytes the rasteriser
     produced for the surface *)
  getImageData : Surface -> Q -> Q -> list byte
}.

(** ** [resizeImage] *)

Definition MAX_WIDTH : Q := 2500.
Definition MAX_HEIGHT : Q := 2500.

Definition N2Q (n : N) : Q := inject_Z (Z.of_N n).

(** [width] and [height] after the [if] of [resizeImage]. *)
Definition resizedDims (img : Image) : Q * Q :=
  let width := N2Q (img_width img) in
  let height := N2Q (img_height img) in
  if Js.gt width MAX_WIDTH || Js.gt height MAX_HEIGHT then
    let scaleFactor :=
      Js.min_ext (Js.div_pos MAX_WIDTH width) (Js.div_pos MAX_HEIGHT height) in
    (inject_Z (Js.round (width * scaleFactor)),
     inject_Z (Js.round (height * scaleFactor)))
  else (width, height).

(** [resizeImage]; [ctx] tells whether [tempCanvas.getContext("2d")]
    returned a context.  Without one the fresh canvas is returned as it is. *)
Definition resizeImage (ctx : bool) (img : Image) : Surface :=
  let tempCanvas := {| s_canvas := new_canvas; s_drawn := [] |} in
  if negb ctx then tempCanvas
  else
    let '(width, height) := resizedDims img in
    {| s_canvas := {| cwidth := Js.to_unsigned_long width;
                      cheight := Js.to_unsigned_long height |};
       s_drawn := [DrawImage (ImageSource img) 0 0 width height] |}.

(** ** The constants of [processImage] *)

Record Layout := {
  imgWidth : Q; imgHeight : Q;
  canvasWidth : Q; canvasHeight : Q;
  imgX : Q; imgY : Q;
  fontSize : Q;
  watermarkTop : Q; websiteTop : Q
}.

Definition layout (resizedCanvas : Canvas) : Layout :=
  let imgWidth := inject_Z (cwidth resizedCanvas) in
  let imgHeight := inject_Z (cheight resizedCanvas) in
  let canvasWidth := imgWidth * 1.1 in
  let canvasHeight := imgHeight * 1.25 in
  let imgX := (canvasWidth - imgWidth) / 2 in
  let imgY := (canvasHeight - imgHeight) * 0.15 in
  let fontSize := Qmax 14 (Qmin imgWidth imgHeight / 50) in
  let watermarkTop := imgY + imgHeight + fontSize * 1.5 in
  let websiteTop := watermarkTop + fontSize * 2 in
  {| imgWidth := imgWidth; imgHeight := imgHeight;
     canvasWidth := canvasWidth; canvasHeight := canvasHeight;
     imgX := imgX; imgY := imgY; fontSize := fontSize;
     watermarkTop := watermarkTop; websiteTop := websiteTop |}.

Definition CAPTION : jsstring :=
  of_string "Protect your documents with DocShield.".

(** The code unit of the star that starts the repeated text, U+2727. *)
Definition STAR : N := 10023.

(** ** The constants of [applyWatermark] *)

Definition patternFontSize (finalWidth finalHeight : Q) : Q :=
  Qmax 8 (Qmin finalWidth finalHeight / 70).

Definition extraPadding (finalWidth finalHeight : Q) : Z :=
  Js.round (patternFontSize finalWidth finalHeight * 10).

Definition patternWidth (finalWidth finalHeight : Q) : Q :=
  finalWidth + inject_Z (extraPadding finalWidth finalHeight) * 2.

Definition patternHeight (finalWidth finalHeight : Q) : Q :=
  finalHeight + inject_Z (extraPadding finalWidth finalHeight) * 5.

(** The pattern canvas after its two assignments. *)
Definition patternCanvas (finalWidth finalHeight : Q) : Canvas :=
  {| cwidth := Js.to_unsigned_long (patternWidth finalWidth finalHeight);
     cheight := Js.to_unsigned_long (patternHeight finalWidth finalHeight) |}.

(** Which calls of [getContext("2d")] return a context: on the canvas
    handed to [processImage], and on the canvases that [resizeImage],
    [applyWatermark] and [applyGrayscaleMask] create. *)
Record Contexts := {
  main_ctx : bool; resize_ctx : bool; pattern_ctx : bool; mask_ctx : bool
}.

Inductive Completion := Returned | Threw.

(** What a call of [processImage] leaves behind: how it ended, the canvas
    it was given ([None] for [null]), and the arguments [setPreview] was
    called with, a data URL being given by the surface it encodes. *)
Record Outcome := {
  completion : Completion;
  surface : option Surface;
  previews : list Surface
}.

(** ** The pipeline *)

Section Pipeline.

Variable host : Host.

(** [createScribblePattern]: the calls made on the mask context.  [rnd]
    is the number of values [Math.random] has returned so far; stroke [i]
    draws three more, for its amplitude, its phase and its line width.
    [processImage] reaches it with a positive [width] only, so that
    [15 / width] is finite. *)
Definition createScribblePattern (rnd : nat) (width height : Q) : list Op :=
  let baseScale := sqrt host ((width * height) / (800 * 800)) in
  let lineSpacing := Qmax 5 (height / 150) in
  let numLines := inject_Z (Js.floor (height / lineSpacing)) * 1.2 in
  FillRect Black 0 0 width height ::
  List.map
    (fun i : Z =>
       let r := (rnd + 3 * Z.to_nat i)%nat in
       let baseY := inject_Z i * lineSpacing + lineSpacing / 2 in
       let amplitude := Qmax 10 (height / 60) * (0.5 + random host r * 0.5) in
       let frequency := Qmax 0.002 (15 / width) in
       let phase := random host (r + 1) * 2 * PI host in
       let lineWidth :=
         Qmax 1 (width / 800) + random host (r + 2) * (baseScale * 0.5) in
       let point (x : Q) :=
         (x, baseY + amplitude * sin host (phase + frequency * x)) in
       Stroke White lineWidth
         (point 0 :: List.map point (Js.steps_upto 1 (Qmax 2 (width / 500)) width)))
    (Js.count_below numLines).

(** The slice [warpTextColumns] draws for column [x]. *)
Definition warpSlice (patternCanvas : Source)
    (height amplitude frequency phase baseShift : Q) (x : Z) : Op :=
  let wave := amplitude * sin host (frequency * inject_Z x + phase) in
  let offset := Js.round (baseShift + wave) in
  DrawImageSlice patternCanvas (inject_Z x) 0 1 height
                 (inject_Z x) (inject_Z offset) 1 height.

(** [warpTextColumns]: the calls made on the main context. *)
Definition warpTextColumns (patternCanvas : Source)
    (width height amplitude frequency phase baseShift : Q) : list Op :=
  List.map (warpSlice patternCanvas height amplitude frequency phase baseShift)
           (Js.count_below width).

(** The wave parameters [applyWatermark] samples, in the order of the
    source: amplitude, frequency, phase.  [processImage] reaches them with a
    positive [finalWidth] only. *)
Definition waveAmplitude (finalHeight : Q) : Q :=
  Qmax 5 (finalHeight / (15 + random host 0 * 5)).
Definition waveFrequency (finalWidth : Q) : Q :=
  Qmax 0.004 ((8 + random host 1 * 4) / finalWidth).
Definition wavePhase : Q := random host 2 * 2 * PI host.

(** What [applyWatermark] has drawn on the pattern canvas when it is
    warped: the canvas cleared, then the tiles of
    [drawHorizontalTextPattern], kept as one operation. *)
Definition patternSurface (finalWidth finalHeight : Q) (text : jsstring)
  : Surface :=
  let patternWidth := patternWidth finalWidth finalHeight in
  let patternHeight := patternHeight finalWidth finalHeight in
  {| s_canvas := patternCanvas finalWidth finalHeight;
     s_drawn :=
       [ClearRect 0 0 patternWidth patternHeight;
        TextPattern patternWidth patternHeight text
          (patternFontSize finalWidth finalHeight) (Rgba 41 133 133 0.5)] |}.

(** [applyWatermark]: the calls made on the main context; none when the
    pattern canvas gives no context.  It is the first user of
    [Math.random]. *)
Definition applyWatermark (ctx : bool)
    (finalWidth finalHeight : Q) (text : jsstring) : list Op :=
  if negb ctx then []
  else
    let amplitude := waveAmplitude finalHeight in
    let frequency := waveFrequency finalWidth in
    let phase := wavePhase in
    let baseShift := (- finalHeight) * 0.1 in
    warpTextColumns (as_source (patternSurface finalWidth finalHeight text))
      (patternWidth finalWidth finalHeight)
      (patternHeight finalWidth finalHeight)
      amplitude frequency phase baseShift.

(** [applyGrayscaleMask]: the calls made on the main context, whose
    surface so far is [main]; none when the mask canvas gives no
    context. *)
Definition applyGrayscaleMask (ctx : bool) (rnd : nat) (main : Surface)
    (width height : Q) : list Op :=
  let imageData := getImageData host main width height in
  let maskCanvas := {| cwidth := Js.to_unsigned_long width;
                       cheight := Js.to_unsigned_long height |} in
  if negb ctx then []
  else
    let mask := {| s_canvas := maskCanvas;
                   s_drawn := createScribblePattern rnd width height |} in
    let maskData := getImageData host mask width height in
    [PutImageData (Pixel.grayMask maskData imageData)].

(** The text drawn below the image: the wrapped lines, then the caption. *)
Definition drawTexts (L : Layout) (watermarkText : jsstring) : list Op :=
  let wrappedLines :=
    wrapText watermarkText (canvasWidth L * 0.9) (fontSize L) in
  imap (fun index line =>
          FillText {| bold := true; px := fontSize L |} Black line
            (canvasWidth L * 0.05)
            (watermarkTop L + inject_Z (Z.of_nat index) * fontSize L * 1.2))
       wrappedLines
  ++ [FillText {| bold := false; px := fontSize L |} Black CAPTION
        (canvasWidth L * 0.05) (websiteTop L)].

(** [processImage].  [drawImage] throws [InvalidStateError] when its
    source is a canvas with a zero dimension; the call then ends there. *)
Definition processImage (cx : Contexts) (img : Image)
    (watermarkText : jsstring) (canvas : option Surface) : Outcome :=
  match canvas with
  | None => {| completion := Returned; surface := None; previews := [] |}
  | Some given =>
    if negb (main_ctx cx) then
      {| completion := Returned; surface := Some given; previews := [] |}
    else
      let resizedCanvas := resizeImage (resize_ctx cx) img in
      let L := layout (s_canvas resizedCanvas) in
      let sized := {| cwidth := Js.to_unsigned_long (canvasWidth L);
                      cheight := Js.to_unsigned_long (canvasHeight L) |} in
      let filled := [FillRect White 0 0 (canvasWidth L) (canvasHeight L)] in
      if (cwidth (s_canvas resizedCanvas) =? 0)%Z
         || (cheight (s_canvas resizedCanvas) =? 0)%Z then
        {| completion := Threw;
           surface := Some {| s_canvas := sized; s_drawn := filled |};
           previews := [] |}
      else
        let placed :=
          filled ++ [DrawImage (as_source resizedCanvas)
                       (imgX L) (imgY L) (imgWidth L) (imgHeight L)] in
        let captioned := placed ++ drawTexts L watermarkText in
        let finalWatermarkText :=
          toUpperCase host (STAR :: SPACE :: watermarkText) in
        let marked :=
          captioned ++ applyWatermark (pattern_ctx cx)
                         (canvasWidth L) (canvasHeight L) finalWatermarkText in
        let rnd := if pattern_ctx cx then 3%nat else 0%nat in
        let masked :=
          marked ++ applyGrayscaleMask (mask_ctx cx) rnd
                      {| s_canvas := sized; s_drawn := marked |}
                      (canvasWidth L) (canvasHeight L) in
        let final := {| s_canvas := sized; s_drawn := masked |} in
        {| completion := Returned; surface := Some final;
           previews := [final] |}
  end.

End Pipeline.

(** ** An invocation to evaluate the pipeline on

    A host whose sine is constantly 0 and whose random numbers are all 0.5
    (its square root and its upper-casing are the identity and its
    rasteriser returns no data: stand-ins, on which nothing below depends),
    a page on which every canvas gives a context, and the hidden canvas of
    the page before its first use. *)

Definition still_host : Host :=
  {| sin := fun _ => 0;
     sqrt := fun x => x;
     PI := 3.14159;
     random := fun _ => 0.5;
     toUpperCase := fun s => s;
     getImageData := fun _ _ _ => [] |}.

Definition all_contexts : Contexts :=
  {| main_ctx := true; resize_ctx := true; pattern_ctx := true;
     mask_ctx := true |}.

Definition hidden_canvas : Surface :=
  {| s_canvas := new_canvas; s_drawn := [] |}.

(** ** The caller: [handleImageUpload]

    [watermarkText.trim() || "Protected by DocShield"], the text the page
    hands to [processImage]. *)

Definition DEFAULT_TEXT : jsstring := of_string "Protected by DocShield".

Definition effectiveText (watermarkText : jsstring) : jsstring :=
  if truthy (trim watermarkText) then trim watermarkText else DEFAULT_TEXT.

(** ** [drawHorizontalTextPattern]

    The values of [x] in [x = start; while (x < bound) { ...; x += step }],
    for at most [fuel] rounds. *)




(** * Properties *)

(** ** Numbers *)

Lemma gt_true (a b : Q) : Js.gt a b = true <-> b < a.
Proof.
  unfold Js.gt. rewrite negb_true_iff, <- not_true_iff_false, Qle_bool_iff.
  split; [apply Qnot_le_lt | apply Qlt_not_le].
Qed.

Lemma gt_false (a b : Q) : Js.gt a b = false <-> a <= b.
Proof.
  unfold Js.gt. rewrite negb_false_iff, Qle_bool_iff. tauto.
Qed.

Lemma round_lower (x : Q) : x - 0.5 < inject_Z (Js.round x).
Proof.
  unfold Js.round. pose proof (Qlt_floor (x + 0.5)) as H.
  rewrite inject_Z_plus in H. change (inject_Z 1) with 1 in H. lra.
Qed.

Lemma round_upper (x : Q) : inject_Z (Js.round x) <= x + 0.5.
Proof. unfold Js.round. apply Qfloor_le. Qed.

Lemma round_between (x : Q) (lo hi : Z) :
  inject_Z lo <= x -> x <= inject_Z hi -> (lo <= Js.round x <= hi)%Z.
Proof.
  intros Hlo Hhi. split.
  - pose proof (round_lower x).
    destruct (Z_le_gt_dec lo (Js.round x)) as [Hle|Hgt]; [exact Hle|].
    exfalso. assert (Js.round x + 1 <= lo)%Z as H2 by lia.
    rewrite Zle_Qle, inject_Z_plus in H2.
    change (inject_Z 1) with 1 in H2. lra.
  - destruct (Z_le_gt_dec (Js.round x) hi) as [Hle|Hgt]; [exact Hle|].
    exfalso. assert (hi + 1 <= Js.round x)%Z as H2 by lia.
    rewrite Zle_Qle, inject_Z_plus in H2.
    change (inject_Z 1) with 1 in H2. pose proof (round_upper x). lra.
Qed.

Lemma trunc_nonneg (x : Q) : 0 <= x -> Js.trunc x = Qfloor x.
Proof.
  intros H. unfold Js.trunc.
  destruct (Qle_bool 0 x) eqn:E; [reflexivity|].
  apply Qle_bool_iff in H. congruence.
Qed.

Lemma to_unsigned_long_floor (x : Q) :
  0 <= x -> x < inject_Z (2 ^ 32) -> Js.to_unsigned_long x = Qfloor x.
Proof.
  intros H0 H1. unfold Js.to_unsigned_long. rewrite trunc_nonneg by exact H0.
  apply Z.mod_small. split.
  - change 0%Z with (Qfloor 0). now apply Qfloor_resp_le.
  - pose proof (Qfloor_le x) as H2.
    destruct (Z_lt_ge_dec (Qfloor x) (2 ^ 32)) as [Hlt|Hge]; [exact Hlt|].
    exfalso. apply Z.ge_le in Hge. rewrite Zle_Qle in Hge. lra.
Qed.

Lemma to_unsigned_long_Z (z : Z) :
  (0 <= z < 2 ^ 32)%Z -> Js.to_unsigned_long (inject_Z z) = z.
Proof.
  intros [H0 H1]. rewrite to_unsigned_long_floor.
  - apply Qfloor_Z.
  - change 0 with (inject_Z 0). now rewrite <- Zle_Qle.
  - now rewrite <- Zlt_Qlt.
Qed.

Lemma count_below_spec (bound : Q) (x : Z) :
  In x (Js.count_below bound) <-> (0 <= x)%Z /\ inject_Z x < bound.
Proof.
  unfold Js.count_below. rewrite in_map_iff. split.
  - intros (k & <- & Hk). apply in_seq in Hk. split; [lia|].
    assert (Z.of_nat k + 1 <= Qceiling bound)%Z as H by lia.
    rewrite Zle_Qle, inject_Z_plus in H. change (inject_Z 1) with 1 in H.
    pose proof (Qceiling_lt bound) as H1.
    replace (Qceiling bound - 1)%Z with (Qceiling bound + -1)%Z in H1 by lia.
    rewrite inject_Z_plus in H1. change (inject_Z (-1)) with (-1) in H1. lra.
  - intros [H0 Hlt]. exists (Z.to_nat x). split; [lia|]. apply in_seq.
    split; [lia|]. simpl.
    assert (x < Qceiling bound)%Z as H; [|lia].
    rewrite Zlt_Qlt. pose proof (Qle_ceiling bound). lra.
Qed.

(** ** [resizeImage] *)

Lemma div_pos_some (x y : Q) : ~ y == 0 -> Js.div_pos x y = Some (x / y).
Proof.
  intros H. unfold Js.div_pos. destruct (Qeq_bool y 0) eqn:E; [|reflexivity].
  apply Qeq_bool_iff in E. contradiction.
Qed.

Lemma div_pos_none (x y : Q) : y == 0 -> Js.div_pos x y = None.
Proof.
  intros H. unfold Js.div_pos. apply Qeq_bool_iff in H. now rewrite H.
Qed.

(** Both products with the scale factor lie in [0, 2500]. *)
Lemma scaleFactor_bounds (w h : Q) :
  0 <= w -> 0 <= h -> 2500 < w \/ 2500 < h ->
  let s := Js.min_ext (Js.div_pos MAX_WIDTH w) (Js.div_pos MAX_HEIGHT h) in
  (0 <= w * s /\ w * s <= 2500) /\ (0 <= h * s /\ h * s <= 2500).
Proof.
  intros Hw Hh Hbig. unfold MAX_WIDTH, MAX_HEIGHT.
  destruct (Qeq_dec w 0) as [Ew|Ew]; destruct (Qeq_dec h 0) as [Eh|Eh].
  - exfalso. destruct Hbig as [H|H]; lra.
  - rewrite (div_pos_none _ _ Ew), (div_pos_some _ _ Eh). simpl.
    assert (w * (2500 / h) == 0) as E1 by (rewrite Ew; ring).
    assert (h * (2500 / h) == 2500) as E2 by (field; exact Eh).
    rewrite E1, E2. lra.
  - rewrite (div_pos_some _ _ Ew), (div_pos_none _ _ Eh). simpl.
    assert (h * (2500 / w) == 0) as E1 by (rewrite Eh; ring).
    assert (w * (2500 / w) == 2500) as E2 by (field; exact Ew).
    rewrite E1, E2. lra.
  - rewrite (div_pos_some _ _ Ew), (div_pos_some _ _ Eh). simpl.
    assert (0 < w) as Pw by lra. assert (0 < h) as Ph by lra.
    assert (w * (2500 / w) == 2500) as E1 by (field; exact Ew).
    assert (h * (2500 / h) == 2500) as E2 by (field; exact Eh).
    assert (0 < 2500 / w) as Pa by (apply Qlt_shift_div_l; lra).
    assert (0 < 2500 / h) as Pb by (apply Qlt_shift_div_l; lra).
    destruct (Q.min_spec (2500 / w) (2500 / h)) as [[Hlt E]|[Hle E]];
      rewrite E.
    + assert (h * (2500 / w) <= h * (2500 / h)) as H1
        by (apply Qmult_le_l; lra).
      repeat split; try (apply Qmult_le_0_compat; lra); lra.
    + assert (w * (2500 / h) <= w * (2500 / w)) as H1
        by (apply Qmult_le_l; lra).
      repeat split; try (apply Qmult_le_0_compat; lra); lra.
Qed.

Lemma N2Q_nonneg (n : N) : 0 <= N2Q n.
Proof.
  unfold N2Q. change 0 with (inject_Z 0). rewrite <- Zle_Qle. lia.
Qed.

Lemma N2Q_le (n : N) (z : Z) : N2Q n <= inject_Z z <-> (Z.of_N n <= z)%Z.
Proof. unfold N2Q. now rewrite <- Zle_Qle. Qed.

Lemma N2Q_gt (n : N) (z : Z) : inject_Z z < N2Q n <-> (z < Z.of_N n)%Z.
Proof. unfold N2Q. now rewrite <- Zlt_Qlt. Qed.




(** ** [trim] and [split] *)

Lemma trim_start_suffix (s : jsstring) : exists p, s = p ++ trim_start s.
Proof.
  induction s as [|c s [p IH]]; [now exists []|]. simpl.
  destruct (is_space c).
  - exists (c :: p). simpl. now f_equal.
  - now exists [].
Qed.

Lemma trim_start_head (s : jsstring) :
  match trim_start s with [] => True | c :: _ => is_space c = false end.
Proof.
  induction s as [|c s IH]; simpl; [exact I|].
  destruct (is_space c) eqn:E; [exact IH|exact E].
Qed.

(** A trimmed string is empty or starts and ends with a character that is
    not white space. *)
Lemma trim_ends (s : jsstring) :
  trim s = [] \/
  exists a m b, (trim s = [a] /\ m = [] /\ a = b \/ trim s = a :: m ++ [b])
                /\ is_space a = false /\ is_space b = false.
Proof.
  unfold trim. set (u := trim_start s).
  pose proof (trim_start_head s) as Hu. fold u in Hu.
  pose proof (trim_start_suffix (rev u)) as [p Hp].
  pose proof (trim_start_head (rev u)) as Hv.
  set (v := trim_start (rev u)) in *.
  destruct v as [|b v']; [now left|]. right.
  (* the last character of [v] is the first of [u] *)
  assert (u = rev v' ++ b :: rev p) as Eu.
  { rewrite <- (rev_involutive u), Hp, rev_app_distr. simpl.
    now rewrite <- app_assoc. }
  simpl. destruct (rev v') as [|a m] eqn:Ev.
  - exists b, [], b. simpl. tauto.
  - exists a, m, b. simpl. split; [now right|]. split; [|exact Hv].
    rewrite Eu in Hu. exact Hu.
Qed.

(** Splitting a string that ends with a character that is not white space:
    no piece is empty, but for the first one when the string starts with
    white space and is split from outside a run. *)
Lemma split_from_nonempty (s : jsstring) (last : N) :
  is_space last = false ->
  Forall (fun w => truthy w = true) (split_from true (s ++ [last]))
  /\ Forall (fun w => truthy w = true) (List.tail (split_from false (s ++ [last])))
  /\ (match s ++ [last] with c :: _ => is_space c = false | [] => True end ->
      Forall (fun w => truthy w = true) (split_from false (s ++ [last]))).
Proof.
  intros Hl. induction s as [|c s (IH1 & IH2 & IH3)]; simpl.
  - rewrite Hl. simpl. repeat split; auto.
  - destruct (is_space c) eqn:E.
    + repeat split; [exact IH1|exact IH1|]. intros H. discriminate.
    + destruct (split_from false (s ++ [last])) as [|w ws] eqn:Es; simpl.
      * repeat split; auto.
      * simpl in IH2. repeat split; auto.
Qed.

Lemma words_nonempty (text : jsstring) :
  trim text <> [] ->
  Forall (fun w => truthy w = true) (split_spaces (trim text)).
Proof.
  intros Hne. unfold split_spaces.
  destruct (trim_ends text) as [E|(a & m & b & [(E & _ & <-)|E] & Ha & Hb)];
    [contradiction| |]; rewrite E.
  - apply (split_from_nonempty [] a Ha). simpl. exact Ha.
  - change (a :: m ++ [b]) with ((a :: m) ++ [b]).
    apply (split_from_nonempty (a :: m) b Hb). simpl. exact Ha.
Qed.

(** ** [wrapText] *)

Section Wrap.

Variables maxWidth charWidth : Q.

Local Abbreviation step := (wrapStep maxWidth charWidth).
Local Abbreviation gstep := (groupStep maxWidth charWidth).
Local Abbreviation fits g := (estWidth charWidth (join g) <= maxWidth).

Lemma join_snoc (g : list jsstring) (w : jsstring) :
  g <> [] -> join (g ++ [w]) = join g ++ SPACE :: w.
Proof.
  induction g as [|v g IH]; [congruence|]. intros _.
  destruct g as [|v' g]; [reflexivity|].
  change (join ((v :: v' :: g) ++ [w]))
    with (v ++ SPACE :: join ((v' :: g) ++ [w])).
  rewrite IH by congruence.
  change (join (v :: v' :: g)) with (v ++ SPACE :: join (v' :: g)).
  now rewrite <- app_assoc.
Qed.

Lemma truthy_join (g : list jsstring) :
  truthy (join g) = true -> g <> [].
Proof. destruct g; [discriminate|congruence]. Qed.

Lemma truthy_app (a b : jsstring) : truthy a = true -> truthy (a ++ b) = true.
Proof. destruct a; [discriminate|reflexivity]. Qed.

(** One round of the loop, on the state and on the groups. *)
Lemma wrapStep_groups (rgs : list (list jsstring)) (w : jsstring) :
  Forall (fun g => truthy (join g) = true) rgs ->
  truthy w = true ->
  step (stateOf rgs) w = stateOf (gstep rgs w)
  /\ Forall (fun g => truthy (join g) = true) (gstep rgs w).
Proof.
  intros Hall Hw. unfold step, gstep, wrapStep, groupStep.
  destruct rgs as [|cur done]; simpl.
  - split; [now destruct (Js.gt _ _)|]. repeat constructor. exact Hw.
  - inversion Hall as [|? ? Hcur Hdone]; subst. rewrite Hcur.
    destruct (Js.gt _ _); unfold stateOf.
    + split; [simpl; now rewrite map_app|]. repeat constructor; assumption.
    + rewrite (join_snoc cur w (truthy_join _ Hcur)). split; [reflexivity|].
      constructor; [|exact Hdone].
      rewrite (join_snoc cur w (truthy_join _ Hcur)). now apply truthy_app.
Qed.

Lemma wrapFold_groups (words : list jsstring) (rgs : list (list jsstring)) :
  Forall (fun g => truthy (join g) = true) rgs ->
  Forall (fun w => truthy w = true) words ->
  fold_left step words (stateOf rgs) = stateOf (fold_left gstep words rgs)
  /\ Forall (fun g => truthy (join g) = true) (fold_left gstep words rgs).
Proof.
  revert rgs. induction words as [|w words IH]; intros rgs Hall Hw; simpl.
  - now split.
  - inversion Hw; subst.
    destruct (wrapStep_groups rgs w Hall) as [-> Hall']; [assumption|].
    now apply IH.
Qed.

(** The lines are the groups of the ghost loop, joined, oldest first. *)
Lemma wrapWords_groups (words : list jsstring) :
  Forall (fun w => truthy w = true) words ->
  wrapWords maxWidth charWidth words
  = List.map join (rev (fold_left gstep words [])).
Proof.
  intros Hw. unfold wrapWords.
  destruct (wrapFold_groups words [] (List.Forall_nil _) Hw) as [E Hall].
  change ([], []) with (stateOf []). fold step. rewrite E.
  destruct (fold_left gstep words []) as [|cur done]; [reflexivity|].
  inversion Hall; subst. simpl. rewrite H1. now rewrite map_app.
Qed.

(** The groups hold the words, in order. *)
Lemma groups_concat (words : list jsstring) (rgs : list (list jsstring)) :
  concat (rev (fold_left gstep words rgs)) = concat (rev rgs) ++ words.
Proof.
  revert rgs. induction words as [|w words IH]; intros rgs; simpl.
  - now rewrite app_nil_r.
  - rewrite IH. unfold gstep, groupStep.
    destruct rgs as [|cur done]; [reflexivity|].
    destruct (Js.gt _ _); simpl; rewrite !concat_app; simpl;
      rewrite ?app_nil_r, <- ?app_assoc; reflexivity.
Qed.




End Wrap.


Lemma wrapText_blank (text : jsstring) (maxWidth fontSize : Q) :
  trim text = [] -> wrapText text maxWidth fontSize = [].
Proof.
  intros E. unfold wrapText. rewrite E. unfold split_spaces, wrapWords. simpl.
  now destruct (Js.gt _ _).
Qed.


(** ** [processImage]: the output surface *)

Lemma resizeImage_range (ctx : bool) (img : Image) :
  let c := s_canvas (resizeImage ctx img) in
  (0 <= cwidth c <= 2500)%Z /\ (0 <= cheight c <= 2500)%Z.
Proof.
  unfold resizeImage. destruct ctx; simpl negb; cbv iota; [|simpl; lia].
  unfold resizedDims.
  set (w := N2Q (img_width img)). set (h := N2Q (img_height img)).
  pose proof (N2Q_nonneg (img_width img)) as Pw. fold w in Pw.
  pose proof (N2Q_nonneg (img_height img)) as Ph. fold h in Ph.
  destruct (Js.gt w MAX_WIDTH || Js.gt h MAX_HEIGHT) eqn:E.
  - apply orb_true_iff in E.
    assert (2500 < w \/ 2500 < h) as Hbig
      by (destruct E as [E|E]; [left|right]; now apply gt_true in E).
    pose proof (scaleFactor_bounds w h Pw Ph Hbig) as [[W0 W1] [H0 H1]].
    set (s := Js.min_ext _ _) in *. cbv zeta in W0, W1, H0, H1. simpl.
    pose proof (round_between (w * s) 0 2500 W0 W1) as RW.
    pose proof (round_between (h * s) 0 2500 H0 H1) as RH.
    rewrite !to_unsigned_long_Z by lia. lia.
  - apply orb_false_iff in E as [Ew Eh].
    apply gt_false, (N2Q_le _ 2500) in Ew. apply gt_false, (N2Q_le _ 2500) in Eh.
    simpl. unfold w, h, N2Q. rewrite !to_unsigned_long_Z by lia. lia.
Qed.

Lemma scaled_dimension (z : Z) (k : Q) :
  (0 <= z <= 2500)%Z -> 0 <= k -> k <= 2 ->
  Js.to_unsigned_long (inject_Z z * k) = Js.trunc (inject_Z z * k).
Proof.
  intros [H0 H1] K0 K2. rewrite Zle_Qle in H0, H1.
  change (inject_Z 0) with 0 in H0. change (inject_Z 2500) with 2500 in H1.
  assert (0 <= inject_Z z * k) as P by (apply Qmult_le_0_compat; lra).
  assert (inject_Z z * k <= 2500 * 2) as B
    by (apply Qmult_le_compat_nonneg; split; lra).
  rewrite to_unsigned_long_floor; [now rewrite trunc_nonneg|exact P|].
  change (inject_Z (2 ^ 32)) with 4294967296. lra.
Qed.

(** Whenever [processImage] gets past its two guards, the canvas it was
    given ends with the dimensions assigned from [canvasWidth] and
    [canvasHeight]. *)
Lemma processImage_sized (host : Host) (cx : Contexts) (img : Image)
    (text : jsstring) (given : Surface) :
  main_ctx cx = true ->
  let L := layout (s_canvas (resizeImage (resize_ctx cx) img)) in
  exists out,
    surface (processImage host cx img text (Some given)) = Some out
    /\ s_canvas out = {| cwidth := Js.to_unsigned_long (canvasWidth L);
                         cheight := Js.to_unsigned_long (canvasHeight L) |}.
Proof.
  intros Hm L. unfold processImage. rewrite Hm. simpl negb. cbv iota.
  fold L. destruct (_ || _); eexists; split; reflexivity.
Qed.

(** C1, as the code has it.  The output surface is [trunc (resizedW * 1.1)]
    by [trunc (resizedH * 1.25)], the fractions being dropped by the
    assignments to [canvas.width] and [canvas.height], where [resizedW] and
    [resizedH] are the dimensions of the canvas [resizeImage] returned; a
    100 by 100 image gives a 110 by 125 surface. *)
Theorem processImage_output_dimensions (host : Host) (cx : Contexts)
    (img : Image) (text : jsstring) (given : Surface) :
  main_ctx cx = true ->
  let resized := s_canvas (resizeImage (resize_ctx cx) img) in
  exists out,
    surface (processImage host cx img text (Some given)) = Some out
    /\ cwidth (s_canvas out) = Js.trunc (inject_Z (cwidth resized) * 1.1)
    /\ cheight (s_canvas out) = Js.trunc (inject_Z (cheight resized) * 1.25)
    /\ (resize_ctx cx = true ->
        img_width img = 100%N -> img_height img = 100%N ->
        s_canvas out = {| cwidth := 110; cheight := 125 |}).
Proof.
  intros Hm resized.
  destruct (processImage_sized host cx img text given Hm) as (out & Es & Ec).
  exists out. split; [exact Es|]. rewrite Ec. simpl.
  destruct (resizeImage_range (resize_ctx cx) img) as [Rw Rh]. fold resized in Rw, Rh.
  fold resized. repeat split.
  - apply scaled_dimension; [exact Rw|lra|lra].
  - apply scaled_dimension; [exact Rh|lra|lra].
  - intros Hr Ew Eh. subst resized. rewrite Hr. destruct img as [iw ih].
    simpl in Ew, Eh. subst iw ih. reflexivity.
Qed.

Lemma processImage_output_dimensions_witness :
  exists out,
    surface (processImage still_host all_contexts
               {| img_width := 100; img_height := 100 |}
               (of_string "TEST") (Some hidden_canvas)) = Some out
    /\ s_canvas out = {| cwidth := 110; cheight := 125 |}.
Proof.
  destruct (processImage_output_dimensions still_host all_contexts
              {| img_width := 100; img_height := 100 |}
              (of_string "TEST") hidden_canvas eq_refl)
    as (out & Es & _ & _ & H).
  exists out. split; [exact Es|]. apply H; reflexivity.
Defined.

(** C1, as stated, fails on a 105 by 102 image: the surface is 115 by 127,
    while [round (105 * 1.1) = 116] and [round (102 * 1.25) = 128]. *)
Lemma output_dimensions_not_rounded :
  let img := {| img_width := 105; img_height := 102 |} in
  let resized := s_canvas (resizeImage true img) in
  exists out,
    surface (processImage still_host all_contexts img
               (of_string "TEST") (Some hidden_canvas)) = Some out
    /\ resized = {| cwidth := 105; cheight := 102 |}
    /\ s_canvas out = {| cwidth := 115; cheight := 127 |}
    /\ Js.round (inject_Z (cwidth resized) * 1.1) = 116%Z
    /\ Js.round (inject_Z (cheight resized) * 1.25) = 128%Z
    /\ cwidth (s_canvas out) <> Js.round (inject_Z (cwidth resized) * 1.1)
    /\ cheight (s_canvas out) <> Js.round (inject_Z (cheight resized) * 1.25).
Proof.
  eexists. split; [vm_compute; reflexivity|].
  repeat split; vm_compute; congruence.
Qed.

(** ** The wave warp *)

Lemma round_comp (x y : Q) : x == y -> Js.round x = Js.round y.
Proof. intros E. unfold Js.round. now rewrite E. Qed.

(** C6.  [applyWatermark] hands the pattern surface to the warper, which
    for every integer column [x] with [0 <= x < patternWidth], and for no
    other, copies the column of full pattern height and width 1 at [x] to
    the main surface at horizontal position [x] and vertical position
    [round (baseShift + amplitude * sin (frequency * x + phase))], the base
    shift being -0.1 times the output height. *)
Theorem warp_columns (host : Host) (finalWidth finalHeight : Q)
    (text : jsstring) :
  let pattern := as_source (patternSurface finalWidth finalHeight text) in
  let patternWidth := patternWidth finalWidth finalHeight in
  let patternHeight := patternHeight finalWidth finalHeight in
  let amplitude := waveAmplitude host finalHeight in
  let frequency := waveFrequency host finalWidth in
  let phase := wavePhase host in
  let baseShift := - 0.1 * finalHeight in
  let offset (x : Z) :=
    Js.round (baseShift + amplitude * sin host (frequency * inject_Z x + phase)) in
  let column (x : Z) :=
    DrawImageSlice pattern (inject_Z x) 0 1 patternHeight
                   (inject_Z x) (inject_Z (offset x)) 1 patternHeight in
  let drawn := applyWatermark host true finalWidth finalHeight text in
  drawn = List.map column (Js.count_below patternWidth)
  /\ (forall x, (0 <= x)%Z -> inject_Z x < patternWidth -> In (column x) drawn)
  /\ (forall op, In op drawn ->
        exists x, (0 <= x)%Z /\ inject_Z x < patternWidth /\ op = column x).
Proof.
  intros pattern pw ph amplitude frequency phase baseShift offset column drawn.
  assert (drawn = List.map column (Js.count_below pw)) as E.
  { subst drawn. unfold applyWatermark, warpTextColumns. simpl negb. cbv iota.
    apply map_ext. intros x. unfold warpSlice, column, offset.
    do 2 f_equal. apply round_comp.
    subst baseShift amplitude frequency phase. ring. }
  split; [exact E|]. rewrite E. split.
  - intros x H0 H1. apply in_map. now apply count_below_spec.
  - intros op Hin. apply in_map_iff in Hin as (x & <- & Hx).
    apply count_below_spec in Hx. exists x. tauto.
Qed.

Lemma warp_columns_witness :
  let pattern := as_source (patternSurface 110 125 (of_string "TEST")) in
  In (DrawImageSlice pattern 0 0 1 (patternHeight 110 125)
                     0 (inject_Z (-12)) 1 (patternHeight 110 125))
     (applyWatermark still_host true 110 125 (of_string "TEST")).
Proof.
  destruct (warp_columns still_host 110 125 (of_string "TEST")) as (_ & H & _).
  exact (H 0%Z (Z.le_refl 0) eq_refl).
Defined.

(** ** The pattern surface *)

Lemma Qfloor_unique (x : Q) (k : Z) :
  inject_Z k <= x -> x < inject_Z k + 1 -> Qfloor x = k.
Proof.
  intros Hlo Hhi. apply Z.le_antisymm.
  - pose proof (Qfloor_le x) as H.
    assert (inject_Z (Qfloor x) < inject_Z (k + 1)) as H1
      by (rewrite inject_Z_plus; change (inject_Z 1) with 1; lra).
    rewrite <- Zlt_Qlt in H1. lia.
  - rewrite <- (Qfloor_Z k). now apply Qfloor_resp_le.
Qed.

Lemma Qfloor_plus_Z (x : Q) (n : Z) :
  Qfloor (x + inject_Z n) = (Qfloor x + n)%Z.
Proof.
  apply Qfloor_unique.
  - rewrite inject_Z_plus. pose proof (Qfloor_le x). lra.
  - rewrite inject_Z_plus. pose proof (Qlt_floor x) as H.
    rewrite inject_Z_plus in H. change (inject_Z 1) with 1 in H. lra.
Qed.

Lemma patternFontSize_range (finalWidth finalHeight : Q) :
  finalWidth <= 2750 ->
  8 <= patternFontSize finalWidth finalHeight
  /\ patternFontSize finalWidth finalHeight <= 40.
Proof.
  intros Hw. unfold patternFontSize. split; [apply Q.le_max_l|].
  apply Q.max_lub; [lra|].
  pose proof (Q.le_min_l finalWidth finalHeight) as H.
  apply Qle_shift_div_r; lra.
Qed.

Lemma extraPadding_range (finalWidth finalHeight : Q) :
  finalWidth <= 2750 ->
  (80 <= extraPadding finalWidth finalHeight <= 400)%Z.
Proof.
  intros Hw. destruct (patternFontSize_range finalWidth finalHeight Hw).
  unfold extraPadding. apply round_between.
  - change (inject_Z 80) with 80. lra.
  - change (inject_Z 400) with 400. lra.
Qed.

Lemma padded_dimension (x : Q) (pad k : Z) :
  0 <= x -> x <= 3125 -> (80 <= pad <= 400)%Z -> (0 <= k <= 5)%Z ->
  Js.to_unsigned_long (x + inject_Z pad * inject_Z k)
  = (Js.to_unsigned_long x + pad * k)%Z.
Proof.
  intros H0 H1 Hp Hk.
  assert (0 <= pad * k <= 2000)%Z as [P0 P1] by nia.
  rewrite Zle_Qle in P0, P1. rewrite <- inject_Z_mult.
  change (inject_Z 0) with 0 in P0. change (inject_Z 2000) with 2000 in P1.
  rewrite !to_unsigned_long_floor.
  - apply Qfloor_plus_Z.
  - exact H0.
  - change (inject_Z (2 ^ 32)) with 4294967296. lra.
  - lra.
  - change (inject_Z (2 ^ 32)) with 4294967296. lra.
Qed.

(** C9, as the code has it.  For a target of at most 2750 by 3125, the
    largest [processImage] produces, the pattern canvas is wider than the
    target by exactly [2 * round (10 * fontSize)] and higher by exactly
    [5 * round (10 * fontSize)], with
    [fontSize = max (8, min (finalWidth, finalHeight) / 70)]. *)
Theorem pattern_padding (finalWidth finalHeight : Q) :
  0 <= finalWidth -> finalWidth <= 2750 ->
  0 <= finalHeight -> finalHeight <= 3125 ->
  let fontSize := Qmax 8 (Qmin finalWidth finalHeight / 70) in
  let padding := Js.round (10 * fontSize) in
  let target := {| cwidth := Js.to_unsigned_long finalWidth;
                   cheight := Js.to_unsigned_long finalHeight |} in
  let pattern := patternCanvas finalWidth finalHeight in
  (cwidth pattern - cwidth target = 2 * padding)%Z
  /\ (cheight pattern - cheight target = 5 * padding)%Z
  /\ patternWidth finalWidth finalHeight - finalWidth == inject_Z (2 * padding)
  /\ patternHeight finalWidth finalHeight - finalHeight == inject_Z (5 * padding).
Proof.
  intros W0 W1 H0 H1 fontSize padding target pattern.
  assert (padding = extraPadding finalWidth finalHeight) as Ep.
  { unfold padding, extraPadding, patternFontSize. apply round_comp.
    subst fontSize. ring. }
  pose proof (extraPadding_range finalWidth finalHeight W1) as Rp.
  rewrite <- Ep in Rp.
  subst pattern target. unfold patternCanvas, patternWidth, patternHeight.
  rewrite <- Ep. simpl cwidth. simpl cheight.
  change 2 with (inject_Z 2). change 5 with (inject_Z 5).
  rewrite !padded_dimension by (try assumption; try lia; lra).
  rewrite !inject_Z_mult. repeat split; try lia; ring.
Qed.

Lemma pattern_padding_witness :
  (cwidth (patternCanvas 110 125) - 110 = 2 * 80)%Z
  /\ (cheight (patternCanvas 110 125) - 125 = 5 * 80)%Z.
Proof.
  destruct (pattern_padding 110 125) as (Hw & Hh & _);
    [discriminate..|]. split; [exact Hw|exact Hh].
Defined.

(** C9, as stated, fails on the 110 by 125 target of a 100 by 100 image:
    the font size is 8, so the stated paddings are [10 * 8 = 80] and
    [5 * 8 * 2 = 80], while the pattern canvas is 270 by 525, that is 160
    wider and 400 higher than the target. *)
Lemma pattern_padding_not_ten_font_sizes :
  let fontSize := patternFontSize 110 125 in
  let pattern := patternCanvas 110 125 in
  fontSize == 8
  /\ pattern = {| cwidth := 270; cheight := 525 |}
  /\ ~ inject_Z (cwidth pattern - 110) == 10 * fontSize
  /\ ~ inject_Z (cheight pattern - 125) == 5 * fontSize * 2
  /\ ~ patternWidth 110 125 - 110 == 10 * fontSize
  /\ ~ patternHeight 110 125 - 125 == 5 * fontSize * 2.
Proof.
  repeat split; try reflexivity; vm_compute; discriminate.
Qed.

(** ** [processImage]: what is drawn, and when [setPreview] is called *)

Lemma app_middle {A} (a b c d : list A) :
  ((a ++ b) ++ c) ++ d = a ++ b ++ (c ++ d).
Proof. now rewrite <- !app_assoc. Qed.

(** With the canvas and its context at hand and a resized canvas that is
    not empty, [processImage] runs to its end: it calls [setPreview] once,
    on the surface it leaves, whatever the other three contexts. *)
Lemma processImage_completes (host : Host) (cx : Contexts) (img : Image)
    (text : jsstring) (given : Surface) :
  main_ctx cx = true ->
  let resized := s_canvas (resizeImage (resize_ctx cx) img) in
  cwidth resized <> 0%Z -> cheight resized <> 0%Z ->
  exists out before after,
    processImage host cx img text (Some given)
    = {| completion := Returned; surface := Some out; previews := [out] |}
    /\ s_drawn out = before ++ drawTexts (layout resized) text ++ after.
Proof.
  intros Hm resized Hw Hh. unfold processImage. rewrite Hm. simpl negb.
  cbv iota. fold resized.
  apply Z.eqb_neq in Hw, Hh. rewrite Hw, Hh. simpl orb. cbv iota.
  eexists. eexists. eexists. split; [reflexivity|]. unfold s_drawn at 1.
  apply app_middle.
Qed.

Lemma fontSize_min (c : Canvas) : 14 <= fontSize (layout c).
Proof. simpl. apply Q.le_max_l. Qed.

(** The texts of [drawTexts] are on the surface [processImage] leaves. *)
Lemma processImage_draws_texts (host : Host) (cx : Contexts) (img : Image)
    (text : jsstring) (given : Surface) :
  main_ctx cx = true ->
  let resized := s_canvas (resizeImage (resize_ctx cx) img) in
  cwidth resized <> 0%Z -> cheight resized <> 0%Z ->
  exists out,
    surface (processImage host cx img text (Some given)) = Some out
    /\ forall op, In op (drawTexts (layout resized) text) -> In op (s_drawn out).
Proof.
  intros Hm resized Hw Hh.
  destruct (processImage_completes host cx img text given Hm Hw Hh)
    as (out & before & after & E & Ed).
  exists out. rewrite E. split; [reflexivity|]. intros op Hop. rewrite Ed.
  apply in_or_app. right. apply in_or_app. now left.
Qed.

(** C7, as the code has it.  The caption is drawn at
    [watermarkTop + 2 * fontSize], where [watermarkTop] is the position of
    the first wrapped line and line [i] is drawn at
    [watermarkTop + i * fontSize * 1.2], however many lines there are: it
    lies below the lines 0 and 1 and above every later one. *)
Theorem caption_position (host : Host) (cx : Contexts) (img : Image)
    (text : jsstring) (given : Surface) :
  main_ctx cx = true ->
  let resized := s_canvas (resizeImage (resize_ctx cx) img) in
  cwidth resized <> 0%Z -> cheight resized <> 0%Z ->
  let L := layout resized in
  let lines := wrapText text (canvasWidth L * 0.9) (fontSize L) in
  let lineY (i : nat) :=
    watermarkTop L + inject_Z (Z.of_nat i) * fontSize L * 1.2 in
  let captionY := watermarkTop L + fontSize L * 2 in
  exists out,
    surface (processImage host cx img text (Some given)) = Some out
    /\ In (FillText {| bold := false; px := fontSize L |} Black CAPTION
             (canvasWidth L * 0.05) captionY) (s_drawn out)
    /\ (forall i line, lines !! i = Some line ->
          In (FillText {| bold := true; px := fontSize L |} Black line
                (canvasWidth L * 0.05) (lineY i)) (s_drawn out))
    /\ (forall i, lineY i < captionY <-> (i < 2)%nat).
Proof.
  intros Hm resized Hw Hh L lines lineY captionY.
  destruct (processImage_draws_texts host cx img text given Hm Hw Hh)
    as (out & E & Hin).
  exists out. split; [exact E|]. fold resized L in Hin. split; [|split].
  - apply Hin. unfold drawTexts. apply in_or_app. right. now left.
  - intros i line Hl. apply Hin. unfold drawTexts.
    apply in_or_app. left. apply list_elem_of_In.
    apply (list_elem_of_lookup_2 _ i). rewrite list_lookup_imap.
    change (wrapText text _ _) with lines. rewrite Hl. reflexivity.
  - intros i. pose proof (fontSize_min resized) as Hf. fold L in Hf.
    unfold lineY, captionY. split.
    + intros Hlt. destruct (Nat.lt_ge_cases i 2) as [H|H]; [exact H|].
      exfalso. assert (2 <= Z.of_nat i)%Z as H2 by lia.
      rewrite Zle_Qle in H2. change (inject_Z 2) with 2 in H2.
      assert (2 * fontSize L <= inject_Z (Z.of_nat i) * fontSize L) as H3
        by (apply Qmult_le_compat_r; lra).
      lra.
    + intros Hlt. assert (Z.of_nat i <= 1)%Z as H1 by lia.
      rewrite Zle_Qle in H1. change (inject_Z 1) with 1 in H1.
      assert (inject_Z (Z.of_nat i) * fontSize L <= 1 * fontSize L) as H3
        by (apply Qmult_le_compat_r; lra).
      lra.
Qed.

Lemma caption_position_witness :
  let L := layout {| cwidth := 100; cheight := 100 |} in
  exists out,
    surface (processImage still_host all_contexts
               {| img_width := 100; img_height := 100 |}
               (of_string "TEST") (Some hidden_canvas)) = Some out
    /\ In (FillText {| bold := false; px := fontSize L |} Black CAPTION
             (canvasWidth L * 0.05) (watermarkTop L + fontSize L * 2))
          (s_drawn out).
Proof.
  destruct (caption_position still_host all_contexts
              {| img_width := 100; img_height := 100 |}
              (of_string "TEST") hidden_canvas eq_refl)
    as (out & Es & Hc & _); [discriminate..|].
  exists out. split; [exact Es|exact Hc].
Defined.

(** C7, as stated, fails on a 400 by 400 image and a text of three words
    of 30 letters, which wraps to three lines: the caption is drawn at
    [y = 464] and the third line at [y = 469.6], below the caption. *)
Lemma caption_above_third_line :
  let img := {| img_width := 400; img_height := 400 |} in
  let text :=
    of_string ("AAAAAAAAAAAAAAAAAAAAAAAAAAAAAA BBBBBBBBBBBBBBBBBBBBBBBBBBBBBB "
               ++ "CCCCCCCCCCCCCCCCCCCCCCCCCCCCCC") in
  let L := layout (s_canvas (resizeImage true img)) in
  let thirdY := watermarkTop L + inject_Z 2 * fontSize L * 1.2 in
  exists out,
    surface (processImage still_host all_contexts img text
               (Some hidden_canvas)) = Some out
    /\ In (FillText {| bold := false; px := fontSize L |} Black CAPTION
             (canvasWidth L * 0.05) (websiteTop L)) (s_drawn out)
    /\ In (FillText {| bold := true; px := fontSize L |} Black
             (of_string "CCCCCCCCCCCCCCCCCCCCCCCCCCCCCC")
             (canvasWidth L * 0.05) thirdY) (s_drawn out)
    /\ websiteTop L == 464 /\ thirdY == 469.6 /\ websiteTop L < thirdY.
Proof.
  intros img text L thirdY.
  destruct (processImage_draws_texts still_host all_contexts img text
              hidden_canvas eq_refl) as (out & Es & Hin); [discriminate..|].
  exists out. split; [exact Es|]. split; [|split].
  - apply Hin. vm_compute. do 3 right. left. reflexivity.
  - apply Hin. vm_compute. do 2 right. left. reflexivity.
  - vm_compute. repeat split; congruence.
Qed.




(** ** The grayscale mask *)

Import Pixel.

Lemma insert_lookup (l : list byte) (i j : nat) (g : byte) :
  <[i:=g]> l !! j = if decide (i = j) then over (l !! j) g else l !! j.
Proof.
  case_decide as E.
  - subst j. unfold over. destruct (l !! i) eqn:El.
    + apply list_lookup_insert_eq. eapply lookup_lt_Some. exact El.
    + rewrite list_insert_ge; [exact El|]. now apply lookup_ge_None.
  - now apply list_lookup_insert_ne.
Qed.

Lemma grayStep_lookup (maskData data : list byte) (i j : nat) :
  grayStep maskData data i !! j
  = if is_zero (maskData !! i) && bool_decide (i <= j < i + 3)%nat then
      over (data !! j)
           (toUint8Clamp
              (gray_of (data !! i) (data !! (i + 1)%nat) (data !! (i + 2)%nat)))
    else data !! j.
Proof.
  unfold grayStep. destruct (is_zero (maskData !! i)); [|reflexivity]. simpl.
  rewrite !insert_lookup.
  case_bool_decide; repeat case_decide; try lia; try reflexivity.
  all: unfold over; destruct (data !! j); reflexivity.
Qed.

Lemma grayAt_block (maskData data : list byte) (m j : nat) :
  (j / 4 = m)%nat ->
  grayAt maskData data j
  = if is_zero (maskData !! (4 * m)%nat)
       && bool_decide (4 * m <= j < 4 * m + 3)%nat then
      over (data !! j)
           (toUint8Clamp
              (gray_of (data !! (4 * m)%nat) (data !! (4 * m + 1)%nat)
                       (data !! (4 * m + 2)%nat)))
    else data !! j.
Proof.
  intros <-. unfold grayAt.
  destruct (is_zero _); [|reflexivity]. rewrite !andb_true_l.
  pose proof (Nat.div_mod_eq j 4) as Hj.
  assert (j mod 4 < 4)%nat as Hm by (apply Nat.mod_upper_bound; lia).
  destruct (Nat.ltb_spec (j mod 4) 3); case_bool_decide; try reflexivity; lia.
Qed.

Lemma grayAt_later (maskData data : list byte) (i j : nat) :
  (i + 4 <= 4 * (j / 4))%nat ->
  grayAt maskData (grayStep maskData data i) j = grayAt maskData data j.
Proof.
  intros H. pose proof (Nat.div_mod_eq j 4) as Hj.
  assert (j mod 4 < 4)%nat as Hm by (apply Nat.mod_upper_bound; lia).
  unfold grayAt.
  rewrite !grayStep_lookup.
  repeat (case_bool_decide; [lia|]). now rewrite !andb_false_r.
Qed.

(** [k] rounds from pixel [m] on leave the gray of [grayAt] in these [k]
    pixels and the data elsewhere. *)
Lemma grayLoop_lookup (maskData : list byte) (k m : nat) (data : list byte)
    (j : nat) :
  grayLoop k (4 * m) maskData data !! j
  = if bool_decide (m <= j / 4 < m + k)%nat then grayAt maskData data j
    else data !! j.
Proof.
  revert m data. induction k as [|k IH]; intros m data; cbn [grayLoop].
  - case_bool_decide; [lia|reflexivity].
  - replace (4 * m + 4)%nat with (4 * S m)%nat by lia. rewrite IH.
    pose proof (Nat.div_mod_eq j 4) as Hj.
    assert (j mod 4 < 4)%nat as Hm by (apply Nat.mod_upper_bound; lia).
    destruct (decide (j / 4 = m)%nat) as [E|E].
    + rewrite (grayAt_block maskData data m j E), grayStep_lookup.
      repeat case_bool_decide; try lia; reflexivity.
    + case_bool_decide.
      * rewrite grayAt_later by lia. case_bool_decide; [reflexivity|lia].
      * rewrite grayStep_lookup.
        repeat case_bool_decide; try lia; now rewrite ?andb_false_r.
Qed.

(** The whole loop leaves [grayAt] at every index. *)
Lemma grayMask_lookup (maskData data : list byte) (j : nat) :
  grayMask maskData data !! j = grayAt maskData data j.
Proof.
  unfold grayMask.
  pose proof (grayLoop_lookup maskData ((length data + 3) / 4) 0 data j) as E.
  change (4 * 0)%nat with 0%nat in E. rewrite E. clear E.
  case_bool_decide as H; [reflexivity|].
  assert (length data <= j)%nat as Hlen.
  { pose proof (Nat.div_mod_eq j 4).
    pose proof (Nat.div_mod_eq (length data + 3) 4).
    assert (j mod 4 < 4)%nat by (apply Nat.mod_upper_bound; lia).
    assert ((length data + 3) mod 4 < 4)%nat
      by (apply Nat.mod_upper_bound; lia).
    lia. }
  apply lookup_ge_None in Hlen. unfold grayAt. rewrite Hlen.
  now destruct (_ && _).
Qed.

Lemma grayLoop_length (maskData : list byte) (k i : nat) (data : list byte) :
  length (grayLoop k i maskData data) = length data.
Proof.
  revert i data. induction k as [|k IH]; intros i data; cbn [grayLoop];
    [reflexivity|].
  rewrite IH. unfold grayStep. destruct (is_zero _); [|reflexivity].
  now rewrite !length_insert.
Qed.

Lemma grayMask_length (maskData data : list byte) :
  length (grayMask maskData data) = length data.
Proof. apply grayLoop_length. Qed.

Lemma is_zero_true (o : option byte) : is_zero o = true <-> o = Some x00.
Proof.
  destruct o as [c|]; simpl; [|split; discriminate]. split.
  - intros H. f_equal. now apply Byte.byte_dec_bl.
  - intros [= ->]. reflexivity.
Qed.

Lemma is_zero_false (o : option byte) : is_zero o = false <-> o <> Some x00.
Proof.
  rewrite <- is_zero_true. destruct (is_zero o); split; congruence.
Qed.

(** C3, as the code has it.  In a pixel whose mask pixel has red channel 0,
    red, green and blue are all replaced by the luminosity
    [0.3 * R + 0.59 * G + 0.11 * B] as the pixel array stores it, that is
    rounded to the nearest integer (a tie going to the even one), and alpha
    is kept; a pixel whose mask pixel has another red channel is kept as it
    is. *)
Theorem grayscale_mask_pixel (maskData data : list byte) (p : nat)
    (r g b a : byte) :
  data !! (4 * p)%nat = Some r -> data !! (4 * p + 1)%nat = Some g ->
  data !! (4 * p + 2)%nat = Some b -> data !! (4 * p + 3)%nat = Some a ->
  let out := grayMask maskData data in
  let gray := toUint8Clamp (luminosity r g b) in
  (maskData !! (4 * p)%nat = Some x00 ->
     out !! (4 * p)%nat = Some gray /\ out !! (4 * p + 1)%nat = Some gray
     /\ out !! (4 * p + 2)%nat = Some gray /\ out !! (4 * p + 3)%nat = Some a)
  /\ (maskData !! (4 * p)%nat <> Some x00 ->
     out !! (4 * p)%nat = Some r /\ out !! (4 * p + 1)%nat = Some g
     /\ out !! (4 * p + 2)%nat = Some b /\ out !! (4 * p + 3)%nat = Some a).
Proof.
  intros Hr Hg Hb Ha out gray. subst out.
  assert (forall c, (c < 4)%nat -> ((4 * p + c) / 4 = p)%nat) as Hdiv.
  { intros c Hc. pose proof (Nat.div_mod_eq (4 * p + c) 4).
    assert ((4 * p + c) mod 4 < 4)%nat by (apply Nat.mod_upper_bound; lia).
    lia. }
  assert (forall c, (c < 4)%nat ->
            grayMask maskData data !! (4 * p + c)%nat
            = if is_zero (maskData !! (4 * p)%nat)
                 && bool_decide (c < 3)%nat
              then over (data !! (4 * p + c)%nat) gray
              else data !! (4 * p + c)%nat) as Hat.
  { intros c Hc. rewrite grayMask_lookup, (grayAt_block _ _ p) by now apply Hdiv.
    rewrite Hr, Hg, Hb. simpl gray_of. fold gray.
    destruct (is_zero _); [|reflexivity]. rewrite !andb_true_l.
    repeat case_bool_decide; try lia; reflexivity. }
  pose proof (Hat 0%nat ltac:(lia)) as H0. rewrite Nat.add_0_r in H0.
  pose proof (Hat 1%nat ltac:(lia)) as H1.
  pose proof (Hat 2%nat ltac:(lia)) as H2.
  pose proof (Hat 3%nat ltac:(lia)) as H3.
  rewrite Hr in H0. rewrite Hg in H1. rewrite Hb in H2. rewrite Ha in H3.
  split; intros Hm.
  - apply is_zero_true in Hm. rewrite Hm in H0, H1, H2, H3. auto.
  - apply is_zero_false in Hm. rewrite Hm in H0, H1, H2, H3. auto.
Qed.

Lemma grayscale_mask_pixel_witness :
  grayMask [x00; x00; x00; xff] [xff; x00; x00; xff]
  !! 0%nat = Some (toUint8Clamp (luminosity xff x00 x00)).
Proof.
  destruct (grayscale_mask_pixel [x00; x00; x00; xff] [xff; x00; x00; xff]
              0 xff x00 x00 xff eq_refl eq_refl eq_refl eq_refl) as [H _].
  destruct (H eq_refl) as [H0 _]. exact H0.
Defined.

(** C3, as stated, fails on the opaque pixel (1, 0, 0) under a black mask
    pixel: its luminosity is 0.3, and red, green and blue become 0. *)
Lemma stored_gray_is_rounded :
  let data := [x01; x00; x00; xff] in
  let maskData := [x00; x00; x00; xff] in
  luminosity x01 x00 x00 = 0.3%float
  /\ grayMask maskData data = [x00; x00; x00; xff]
  /\ (forall c, grayMask maskData data !! 0%nat = Some c ->
        of_byte c <> luminosity x01 x00 x00).
Proof.
  split; [vm_compute; reflexivity|]. split; [vm_compute; reflexivity|].
  intros c [= <-] E.
  apply (f_equal (fun x => PrimFloat.eqb x (luminosity x01 x00 x00))) in E.
  vm_compute in E. discriminate.
Qed.

(** ** Masking twice *)

Lemma gray_of_gray (v : byte) : toUint8Clamp (luminosity v v v) = v.
Proof. destruct v; vm_compute; reflexivity. Qed.

(** C10, as the code has it.  For [R = G = B = v] the luminosity is stored
    as exactly [v], so masking a second time with the same mask leaves the
    once-masked data unchanged. *)
Theorem grayMask_idempotent (maskData data : list byte) :
  (forall v, toUint8Clamp (luminosity v v v) = v)
  /\ grayMask maskData (grayMask maskData data) = grayMask maskData data.
Proof.
  split; [exact gray_of_gray|]. apply list_eq. intros j.
  rewrite (grayMask_lookup maskData (grayMask maskData data)).
  unfold grayAt at 1. rewrite !grayMask_lookup.
  destruct (is_zero (maskData !! (4 * (j / 4))%nat) && (j mod 4 <? 3)%nat)
    eqn:E; [|reflexivity].
  assert (grayAt maskData data j
          = over (data !! j)
              (toUint8Clamp
                 (gray_of (data !! (4 * (j / 4))%nat)
                          (data !! (4 * (j / 4) + 1)%nat)
                          (data !! (4 * (j / 4) + 2)%nat)))) as Ej
    by (unfold grayAt; now rewrite E).
  apply andb_true_iff in E as [Ez Ec].
  assert (forall c, (c < 3)%nat ->
            grayAt maskData data (4 * (j / 4) + c)%nat
            = over (data !! (4 * (j / 4) + c)%nat)
                (toUint8Clamp
                   (gray_of (data !! (4 * (j / 4))%nat)
                            (data !! (4 * (j / 4) + 1)%nat)
                            (data !! (4 * (j / 4) + 2)%nat)))) as Hat.
  { intros c Hc. rewrite (grayAt_block _ _ (j / 4)).
    - rewrite Ez, andb_true_l. case_bool_decide; [reflexivity|lia].
    - pose proof (Nat.div_mod_eq (4 * (j / 4) + c) 4).
      assert ((4 * (j / 4) + c) mod 4 < 4)%nat
        by (apply Nat.mod_upper_bound; lia).
      lia. }
  pose proof (Hat 0%nat ltac:(lia)) as H0. rewrite Nat.add_0_r in H0.
  rewrite Ej, H0, (Hat 1%nat), (Hat 2%nat) by lia.
  destruct (data !! j); [|reflexivity].
  unfold over at 1 5. f_equal.
  destruct (data !! (4 * (j / 4))%nat), (data !! (4 * (j / 4) + 1)%nat),
    (data !! (4 * (j / 4) + 2)%nat); try reflexivity.
  simpl over. simpl gray_of at 1. apply gray_of_gray.
Qed.

(** C10, as stated, fails at [v = 1]: in binary64
    [0.3 * 1 + 0.59 * 1 + 0.11 * 1] is not 1. *)
Lemma luminosity_of_gray_inexact :
  luminosity x01 x01 x01 <> of_byte x01
  /\ PrimFloat.ltb (luminosity x01 x01 x01) 1%float = true.
Proof.
  split; [|vm_compute; reflexivity]. intros E.
  apply (f_equal (fun x => PrimFloat.eqb x (of_byte x01))) in E.
  vm_compute in E. discriminate.
Qed.

(** ** The scribble mask *)

(** [createScribblePattern] paints with two colours only: it fills in black
    and strokes in white.  The pixels these calls leave are the
    rasteriser's. *)
Lemma createScribblePattern_paints (host : Host) (rnd : nat)
    (width height : Q) (op : Op) :
  In op (createScribblePattern host rnd width height) ->
  op = FillRect Black 0 0 width height
  \/ exists lineWidth path, op = Stroke White lineWidth path.
Proof.
  unfold createScribblePattern. intros [<-|Hin]; [now left|]. right.
  apply in_map_iff in Hin as (i & <- & _). eauto.
Qed.

(** ** The example of the specification *)

Example wrapText_AAAA_BBBB_CCCC :
  wrapText (of_string "AAAA BBBB CCCC") 80 14
  = [of_string "AAAA BBBB"; of_string "CCCC"]
  /\ wrapText (of_string "AAAA BBBB CCCC") 30 14
     = [of_string "AAAA"; of_string "BBBB"; of_string "CCCC"]
  /\ wrapText (of_string "  ") 30 14 = [].
Proof. repeat split; vm_compute; reflexivity. Qed.

(** * Further properties *)

(** ** [wrapText]: lines and words *)

Lemma split_from_not_nil (in_run : bool) (s : jsstring) :
  split_from in_run s <> [].
Proof.
  revert in_run. induction s as [|c s IH]; intros in_run; simpl; [discriminate|].
  destruct (is_space c); [destruct in_run; [apply IH|discriminate]|].
  destruct (split_from false s); discriminate.
Qed.

Lemma concat_length_groups {A} (gs : list (list A)) :
  Forall (fun g => g <> []) gs -> (length gs <= length (concat gs))%nat.
Proof.
  induction 1 as [|g gs Hg _ IH]; simpl; [lia|].
  rewrite length_app. destruct g; [congruence|simpl; lia].
Qed.

(** The groups behind the lines of a text that is not blank. *)
Lemma wrapText_groups (text : jsstring) (maxWidth fontSize : Q) :
  trim text <> [] ->
  let words := split_spaces (trim text) in
  let rgs := fold_left (groupStep maxWidth (fontSize * 0.55)) words [] in
  wrapText text maxWidth fontSize = List.map join (rev rgs)
  /\ concat (rev rgs) = words
  /\ Forall (fun g => truthy (join g) = true) rgs
  /\ Forall (fun w => truthy w = true) words.
Proof.
  intros Hne words rgs.
  assert (Forall (fun w => truthy w = true) words) as Hw
    by now apply words_nonempty.
  repeat split.
  - unfold wrapText. now apply wrapWords_groups.
  - subst rgs. now rewrite groups_concat.
  - subst rgs. now apply (wrapFold_groups maxWidth (fontSize * 0.55) words []).
  - exact Hw.
Qed.

Lemma blank_or_not (text : jsstring) : trim text = [] \/ trim text <> [].
Proof. destruct (trim text); [now left|right; discriminate]. Qed.

(** X1.  No line of [wrapText] is empty, and there are never more lines
    than words. *)
Theorem wrapText_lines_nonempty (text : jsstring) (maxWidth fontSize : Q) :
  (forall line, In line (wrapText text maxWidth fontSize) -> line <> [])
  /\ (length (wrapText text maxWidth fontSize)
      <= length (split_spaces (trim text)))%nat.
Proof.
  destruct (blank_or_not text) as [Et|Hne].
  - rewrite (wrapText_blank text maxWidth fontSize Et). split; [intros ? []|].
    simpl. lia.
  - destruct (wrapText_groups text maxWidth fontSize Hne) as (El & Ec & Hg & _).
    rewrite El. split.
    + intros line Hin. apply in_map_iff in Hin as (g & <- & Hin).
      apply in_rev in Hin. rewrite List.Forall_forall in Hg.
      specialize (Hg g Hin). now destruct (join g).
    + rewrite length_map.
      match type of Ec with concat ?gs = _ =>
        pose proof (concat_length_groups gs) as Hlen end.
      rewrite Ec in Hlen. apply Hlen.
      apply List.Forall_forall. intros g Hin. apply in_rev in Hin.
      rewrite List.Forall_forall in Hg. now apply truthy_join, Hg.
Qed.

Lemma wrapText_not_blank (text : jsstring) (maxWidth fontSize : Q) :
  trim text <> [] -> wrapText text maxWidth fontSize <> [].
Proof.
  intros Hne E.
  destruct (wrapText_groups text maxWidth fontSize Hne) as (El & Ec & _ & _).
  rewrite E in El. symmetry in El. apply map_eq_nil in El.
  rewrite El in Ec. simpl in Ec. symmetry in Ec.
  now apply (split_from_not_nil false (trim text)).
Qed.

(** X2.  [wrapText] returns no line exactly for a blank text, one that is
    empty or white space only. *)
Theorem wrapText_empty_iff (text : jsstring) (maxWidth fontSize : Q) :
  wrapText text maxWidth fontSize = [] <-> trim text = [].
Proof.
  split; [|apply wrapText_blank]. intros E.
  destruct (blank_or_not text) as [Et|Hne]; [exact Et|exfalso].
  now apply (wrapText_not_blank text maxWidth fontSize).
Qed.






(** ** The text the page hands over *)

Lemma trim_start_id (s : jsstring) :
  match s with c :: _ => is_space c = false | [] => True end ->
  trim_start s = s.
Proof. destruct s as [|c s]; [reflexivity|]. simpl. now intros ->. Qed.

Lemma trim_trim (s : jsstring) : trim (trim s) = trim s.
Proof.
  destruct (trim_ends s) as [E|(a & m & b & [(E & _ & <-)|E] & Ha & Hb)];
    rewrite E; unfold trim.
  - reflexivity.
  - simpl. rewrite Ha. simpl. now rewrite Ha.
  - rewrite (trim_start_id (a :: m ++ [b]) Ha).
    assert (rev (a :: m ++ [b]) = b :: rev (a :: m)) as Er.
    { change (a :: m ++ [b]) with ((a :: m) ++ [b]). now rewrite rev_app_distr. }
    rewrite Er, (trim_start_id (b :: rev (a :: m)) Hb), <- Er.
    apply rev_involutive.
Qed.

(** X4.  The text the page hands to [processImage] is never blank and
    carries no white space at its ends: it is the trimmed input, or
    "Protected by DocShield" when the input is blank; so [wrapText] always
    returns at least one line for it. *)
Theorem effectiveText_not_blank (watermarkText : jsstring)
    (maxWidth fontSize : Q) :
  let text := effectiveText watermarkText in
  trim text = text
  /\ text <> []
  /\ (trim watermarkText = [] -> text = DEFAULT_TEXT)
  /\ (trim watermarkText <> [] -> text = trim watermarkText)
  /\ wrapText text maxWidth fontSize <> [].
Proof.
  intros text.
  assert (trim text = text /\ text <> []) as [Et Hne].
  { subst text. unfold effectiveText.
    destruct (trim watermarkText) as [|c t] eqn:E; simpl truthy; cbv iota.
    - split; [vm_compute; reflexivity|discriminate].
    - split; [|discriminate]. rewrite <- E. apply trim_trim. }
  split; [exact Et|]. split; [exact Hne|]. split; [|split].
  - intros E. subst text. unfold effectiveText. now rewrite E.
  - intros H. subst text. unfold effectiveText.
    destruct (trim watermarkText); [congruence|reflexivity].
  - apply wrapText_not_blank. congruence.
Qed.

(** ** [resizeImage]: what the scale factor does *)

Lemma round_Z (z : Z) : Js.round (inject_Z z) = z.
Proof.
  unfold Js.round. apply Qfloor_unique; lra.
Qed.


(** The scale factor of an image with positive dimensions, one of them
    above 2500: it is [2500 / max (w, h)]. *)
Lemma scaleFactor_cases (w h : Q) :
  0 < w -> 0 < h -> 2500 < w \/ 2500 < h ->
  let s := Js.min_ext (Js.div_pos MAX_WIDTH w) (Js.div_pos MAX_HEIGHT h) in
  (h <= w /\ w * s == 2500 /\ h * s == h * 2500 / w)
  \/ (w <= h /\ h * s == 2500 /\ w * s == w * 2500 / h).
Proof.
  intros Pw Ph Hbig. unfold MAX_WIDTH, MAX_HEIGHT.
  rewrite !div_pos_some by lra. simpl.
  assert (w * (2500 / w) == 2500) as E1 by (field; lra).
  assert (h * (2500 / h) == 2500) as E2 by (field; lra).
  assert (0 < w * h) as Pwh by (apply Qmult_lt_0_compat; lra).
  assert (2500 / w * (w * h) == 2500 * h) as Ea by (field; lra).
  assert (2500 / h * (w * h) == 2500 * w) as Eb by (field; lra).
  destruct (Q.min_spec (2500 / w) (2500 / h)) as [[Hlt E]|[Hle E]]; rewrite E.
  - left. split; [|split; [exact E1|field; lra]].
    pose proof (Qmult_lt_compat_r _ _ (w * h) Pwh Hlt) as H. lra.
  - right. split; [|split; [exact E2|field; lra]].
    pose proof (Qmult_le_compat_r _ _ (w * h) Hle (Qlt_le_weak _ _ Pwh)) as H.
    lra.
Qed.

Lemma scaleFactor_le_1 (w h : Q) :
  0 <= w -> 0 <= h -> 2500 < w \/ 2500 < h ->
  let s := Js.min_ext (Js.div_pos MAX_WIDTH w) (Js.div_pos MAX_HEIGHT h) in
  0 <= s /\ s <= 1.
Proof.
  intros Hw Hh Hbig. unfold MAX_WIDTH, MAX_HEIGHT.
  assert (forall d, 0 < d -> 0 <= 2500 / d) as Hpos
    by (intros d Hd; apply Qle_shift_div_l; lra).
  assert (forall d, 2500 < d -> 2500 / d <= 1) as Hone
    by (intros d Hd; apply Qle_shift_div_r; lra).
  destruct (Qeq_dec w 0) as [Ew|Ew]; destruct (Qeq_dec h 0) as [Eh|Eh].
  - exfalso. destruct Hbig; lra.
  - rewrite (div_pos_none _ _ Ew), (div_pos_some _ _ Eh). simpl.
    split; [apply Hpos; lra|apply Hone; destruct Hbig; lra].
  - rewrite (div_pos_some _ _ Ew), (div_pos_none _ _ Eh). simpl.
    split; [apply Hpos; lra|apply Hone; destruct Hbig; lra].
  - rewrite (div_pos_some _ _ Ew), (div_pos_some _ _ Eh). simpl.
    pose proof (Hpos w ltac:(lra)). pose proof (Hpos h ltac:(lra)).
    pose proof (Q.le_min_l (2500 / w) (2500 / h)).
    pose proof (Q.le_min_r (2500 / w) (2500 / h)).
    split; [apply Q.min_glb; assumption|].
    destruct Hbig as [Hb|Hb]; pose proof (Hone _ Hb); lra.
Qed.

(** The canvas of [resizeImage] in its two cases. *)
Lemma resizeImage_small (img : Image) :
  (img_width img <= 2500)%N -> (img_height img <= 2500)%N ->
  s_canvas (resizeImage true img)
  = {| cwidth := Z.of_N (img_width img); cheight := Z.of_N (img_height img) |}.
Proof.
  intros Hw Hh. unfold resizeImage, resizedDims. simpl negb. cbv iota.
  assert (Js.gt (N2Q (img_width img)) MAX_WIDTH = false) as ->
    by (apply gt_false, (N2Q_le _ 2500); lia).
  assert (Js.gt (N2Q (img_height img)) MAX_HEIGHT = false) as ->
    by (apply gt_false, (N2Q_le _ 2500); lia).
  simpl. unfold N2Q. now rewrite !to_unsigned_long_Z by lia.
Qed.

Lemma resizeImage_big (img : Image) :
  (2500 < img_width img)%N \/ (2500 < img_height img)%N ->
  let w := N2Q (img_width img) in
  let h := N2Q (img_height img) in
  let s := Js.min_ext (Js.div_pos MAX_WIDTH w) (Js.div_pos MAX_HEIGHT h) in
  s_canvas (resizeImage true img)
  = {| cwidth := Js.round (w * s); cheight := Js.round (h * s) |}
  /\ (2500 < w \/ 2500 < h).
Proof.
  intros Hbig w h s.
  assert (2500 < w \/ 2500 < h) as HbigQ
    by (destruct Hbig as [H|H]; [left|right]; apply (N2Q_gt _ 2500); lia).
  split; [|exact HbigQ].
  unfold resizeImage, resizedDims. simpl negb. cbv iota. fold w h.
  assert (Js.gt w MAX_WIDTH || Js.gt h MAX_HEIGHT = true) as ->
    by (apply orb_true_iff; destruct HbigQ; [left|right]; now apply gt_true).
  fold s. simpl.
  pose proof (N2Q_nonneg (img_width img)) as Pw.
  pose proof (N2Q_nonneg (img_height img)) as Ph.
  pose proof (scaleFactor_bounds w h Pw Ph HbigQ) as [[W0 W1] [H0 H1]].
  fold s in W0, W1, H0, H1.
  pose proof (round_between (w * s) 0 2500 W0 W1).
  pose proof (round_between (h * s) 0 2500 H0 H1).
  now rewrite !to_unsigned_long_Z by lia.
Qed.

(** X5.  [resizeImage] never enlarges: neither dimension of its canvas
    exceeds that of the image; and when it scales an image with positive
    dimensions, the larger dimension becomes exactly 2500. *)
Theorem resizeImage_never_enlarges (img : Image) :
  let c := s_canvas (resizeImage true img) in
  (cwidth c <= Z.of_N (img_width img))%Z
  /\ (cheight c <= Z.of_N (img_height img))%Z
  /\ ((2500 < img_width img)%N \/ (2500 < img_height img)%N ->
      (0 < img_width img)%N -> (0 < img_height img)%N ->
      Z.max (cwidth c) (cheight c) = 2500%Z).
Proof.
  intros c. subst c.
  assert (((img_width img <= 2500)%N /\ (img_height img <= 2500)%N)
          \/ ((2500 < img_width img)%N \/ (2500 < img_height img)%N))
    as [[Hw Hh]|Hbig] by lia.
  - rewrite (resizeImage_small img Hw Hh). simpl. repeat split; lia.
  - destruct (resizeImage_big img Hbig) as [-> HbigQ]. simpl.
    set (w := N2Q (img_width img)) in *. set (h := N2Q (img_height img)) in *.
    pose proof (N2Q_nonneg (img_width img)) as Pw. fold w in Pw.
    pose proof (N2Q_nonneg (img_height img)) as Ph. fold h in Ph.
    pose proof (scaleFactor_le_1 w h Pw Ph HbigQ) as [S0 S1].
    pose proof (scaleFactor_bounds w h Pw Ph HbigQ) as [[W0 W1] [H0 H1]].
    set (s := Js.min_ext _ _) in *. cbv zeta in *.
    pose proof (Qmult_le_compat_r _ _ w S1 Pw) as Lw.
    pose proof (Qmult_le_compat_r _ _ h S1 Ph) as Lh.
    repeat split.
    + apply (round_between (w * s) 0 (Z.of_N (img_width img))); [exact W0|].
      fold (N2Q (img_width img)). fold w. lra.
    + apply (round_between (h * s) 0 (Z.of_N (img_height img))); [exact H0|].
      fold (N2Q (img_height img)). fold h. lra.
    + intros _ Zw Zh.
      assert (inject_Z 0 < w) as Qw by (apply N2Q_gt; lia).
      assert (inject_Z 0 < h) as Qh by (apply N2Q_gt; lia).
      change (inject_Z 0) with 0 in Qw, Qh.
      pose proof (round_between (w * s) 0 2500 W0 W1).
      pose proof (round_between (h * s) 0 2500 H0 H1).
      destruct (scaleFactor_cases w h Qw Qh HbigQ) as [(_ & E & _)|(_ & E & _)];
        fold s in E.
      * rewrite (round_comp _ _ E). change (Js.round 2500) with 2500%Z. lia.
      * rewrite (round_comp (h * s) _ E). change (Js.round 2500) with 2500%Z.
        lia.
Qed.

Lemma resizeImage_never_enlarges_witness :
  Z.max (cwidth (s_canvas (resizeImage true
                             {| img_width := 3000; img_height := 5000 |})))
        (cheight (s_canvas (resizeImage true
                              {| img_width := 3000; img_height := 5000 |})))
  = 2500%Z.
Proof.
  destruct (resizeImage_never_enlarges
              {| img_width := 3000; img_height := 5000 |}) as (_ & _ & H).
  apply H; [left|..]; reflexivity.
Defined.




(** ** [processImage]: degenerate images, bounds and order *)



(** X8.  Resizing is idempotent: an image with the dimensions of a resized
    canvas is resized to these same dimensions. *)
Theorem resizeImage_idempotent (img : Image) :
  let c := s_canvas (resizeImage true img) in
  s_canvas (resizeImage true {| img_width := Z.to_N (cwidth c);
                                img_height := Z.to_N (cheight c) |}) = c.
Proof.
  intros c. pose proof (resizeImage_range true img) as [Rw Rh]. fold c in Rw, Rh.
  rewrite resizeImage_small; simpl; [|lia|lia].
  rewrite !Z2N.id by lia. now destruct c.
Qed.

(** X9.  For every image, the surface [processImage] leaves in the canvas is
    at most 2750 by 3125. *)
Theorem processImage_output_bounded (host : Host) (cx : Contexts)
    (img : Image) (text : jsstring) (given : Surface) :
  main_ctx cx = true ->
  exists out,
    surface (processImage host cx img text (Some given)) = Some out
    /\ (0 <= cwidth (s_canvas out) <= 2750)%Z
    /\ (0 <= cheight (s_canvas out) <= 3125)%Z.
Proof.
  intros Hm.
  destruct (processImage_sized host cx img text given Hm) as (out & Es & Ec).
  exists out. split; [exact Es|]. rewrite Ec. simpl.
  destruct (resizeImage_range (resize_ctx cx) img) as [Rw Rh].
  set (c := s_canvas (resizeImage (resize_ctx cx) img)) in *.
  assert (0 <= inject_Z (cwidth c) /\ inject_Z (cwidth c) <= 2500) as [W0 W1].
  { change 0 with (inject_Z 0). change 2500 with (inject_Z 2500).
    rewrite <- !Zle_Qle. lia. }
  assert (0 <= inject_Z (cheight c) /\ inject_Z (cheight c) <= 2500) as [H0 H1].
  { change 0 with (inject_Z 0). change 2500 with (inject_Z 2500).
    rewrite <- !Zle_Qle. lia. }
  rewrite !scaled_dimension by (try exact Rw; try exact Rh; lra).
  rewrite !trunc_nonneg by lra.
  split.
  - split.
    + change 0%Z with (Qfloor 0). apply Qfloor_resp_le. lra.
    + change 2750%Z with (Qfloor 2750). apply Qfloor_resp_le. lra.
  - split.
    + change 0%Z with (Qfloor 0). apply Qfloor_resp_le. lra.
    + change 3125%Z with (Qfloor 3125). apply Qfloor_resp_le. lra.
Qed.

Lemma processImage_output_bounded_witness :
  exists out,
    surface (processImage still_host all_contexts
               {| img_width := 9000; img_height := 9000 |}
               (of_string "TEST") (Some hidden_canvas)) = Some out
    /\ (cwidth (s_canvas out) <= 2750)%Z.
Proof.
  destruct (processImage_output_bounded still_host all_contexts
              {| img_width := 9000; img_height := 9000 |}
              (of_string "TEST") hidden_canvas eq_refl)
    as (out & Es & [_ Hw] & _).
  exists out. split; [exact Es|exact Hw].
Defined.

(** X10.  When the temporary canvas of [resizeImage] gives no context, the
    image is not looked at: whatever it is, [processImage] composes the
    blank 300 by 150 canvas into a 330 by 187 surface and calls
    [setPreview] with it. *)
Theorem processImage_without_resize_context (host : Host) (cx : Contexts)
    (img : Image) (text : jsstring) (given : Surface) :
  main_ctx cx = true -> resize_ctx cx = false ->
  let L := layout new_canvas in
  exists out,
    processImage host cx img text (Some given)
    = {| completion := Returned; surface := Some out; previews := [out] |}
    /\ s_canvas out = {| cwidth := 330; cheight := 187 |}
    /\ In (DrawImage (CanvasSource new_canvas [])
             (imgX L) (imgY L) (imgWidth L) (imgHeight L)) (s_drawn out)
    /\ imgX L == 15 /\ imgY L == 5.625
    /\ imgWidth L == 300 /\ imgHeight L == 150.
Proof.
  intros Hm Hr L.
  destruct (processImage_completes host cx img text given Hm)
    as (out & before & after & E & Ed); [rewrite Hr; discriminate..|].
  exists out. split; [exact E|].
  assert (surface (processImage host cx img text (Some given)) = Some out)
    as Es by now rewrite E.
  unfold processImage in Es. rewrite Hm, Hr in Es. simpl in Es.
  injection Es as <-. simpl. split; [reflexivity|].
  split; [now right; left|]. repeat split.
Qed.

Lemma processImage_without_resize_context_witness :
  exists out,
    previews (processImage still_host
                {| main_ctx := true; resize_ctx := false; pattern_ctx := true;
                   mask_ctx := true |}
                {| img_width := 1000; img_height := 50 |}
                (of_string "TEST") (Some hidden_canvas)) = [out]
    /\ s_canvas out = {| cwidth := 330; cheight := 187 |}.
Proof.
  destruct (processImage_without_resize_context still_host
              {| main_ctx := true; resize_ctx := false; pattern_ctx := true;
                 mask_ctx := true |}
              {| img_width := 1000; img_height := 50 |}
              (of_string "TEST") hidden_canvas eq_refl eq_refl)
    as (out & E & Hc & _).
  exists out. rewrite E. split; [reflexivity|exact Hc].
Defined.

(** ** The layout of [processImage] *)

Lemma layout_fontSize (c : Canvas) :
  (0 <= cwidth c)%Z -> (0 <= cheight c)%Z ->
  14 <= fontSize (layout c)
  /\ fontSize (layout c) <= Qmax 14 (inject_Z (cheight c) / 50).
Proof.
  intros Hw Hh. simpl. split; [apply Q.le_max_l|].
  apply Q.max_lub; [apply Q.le_max_l|].
  eapply Qle_trans; [|apply Q.le_max_r].
  pose proof (Q.le_min_r (inject_Z (cwidth c)) (inject_Z (cheight c))) as H.
  unfold Qdiv. apply Qmult_le_compat_r; [exact H|]. discriminate.
Qed.



(** X12.  The texts below the image can fall off the canvas: the position of
    the first wrapped line lies within [canvasHeight] exactly when the
    resized image is at least 99 high, and that of the caption exactly when
    it is at least 231 high. *)
Theorem layout_text_within_canvas (c : Canvas) :
  (0 <= cwidth c)%Z -> (0 <= cheight c)%Z ->
  let L := layout c in
  (watermarkTop L <= canvasHeight L <-> (99 <= cheight c)%Z)
  /\ (websiteTop L <= canvasHeight L <-> (231 <= cheight c)%Z).
Proof.
  intros Hw Hh L. destruct (layout_fontSize c Hw Hh) as [F G].
  assert (forall k : Z, (k <= cheight c)%Z <-> inject_Z k <= inject_Z (cheight c))
    as Hk by (intros k; now rewrite <- Zle_Qle).
  rewrite (Hk 99%Z), (Hk 231%Z). change (inject_Z 99) with 99.
  change (inject_Z 231) with 231.
  rewrite Zle_Qle in Hh. change (inject_Z 0) with 0 in Hh.
  fold L in F, G. subst L. unfold layout in *.
  cbn [imgY imgHeight canvasHeight watermarkTop websiteTop fontSize] in *.
  set (h := inject_Z (cheight c)) in *. set (fs := Qmax 14 _) in *.
  assert (h / 50 == h * 0.02) as E by field. rewrite E in G.
  assert (fs <= 14 \/ fs <= h * 0.02) as Hfs.
  { destruct (Q.max_spec 14 (h * 0.02)) as [[_ Em]|[_ Em]]; rewrite Em in G;
      [now right|now left]. }
  assert (forall k : Z, h < inject_Z (k + 1) -> h <= inject_Z k) as Hint.
  { intros k Hlt. unfold h in *. rewrite <- Zlt_Qlt in Hlt.
    rewrite <- Zle_Qle. lia. }
  split; split; intros H.
  - destruct (Qlt_le_dec h 99) as [Hlt|Hge]; [|exact Hge]. exfalso.
    pose proof (Hint 98%Z Hlt) as H98. change (inject_Z 98) with 98 in H98.
    lra.
  - destruct Hfs; lra.
  - destruct (Qlt_le_dec h 231) as [Hlt|Hge]; [|exact Hge]. exfalso.
    pose proof (Hint 230%Z Hlt) as H230.
    change (inject_Z 230) with 230 in H230. lra.
  - destruct Hfs; lra.
Qed.

Lemma layout_text_within_canvas_witness :
  websiteTop (layout {| cwidth := 400; cheight := 400 |})
  <= canvasHeight (layout {| cwidth := 400; cheight := 400 |}).
Proof.
  destruct (layout_text_within_canvas {| cwidth := 400; cheight := 400 |})
    as [_ [_ H]]; [discriminate..|].
  apply H. discriminate.
Defined.

(** ** The wave warp: where the columns land *)

Lemma extraPadding_min (finalWidth finalHeight : Q) :
  (80 <= extraPadding finalWidth finalHeight)%Z.
Proof.
  unfold extraPadding, patternFontSize.
  pose proof (Q.le_max_l 8 (Qmin finalWidth finalHeight / 70)) as H.
  assert (Js.round 80 <= Js.round (Qmax 8 (Qmin finalWidth finalHeight / 70) * 10))%Z
    as Hr by (apply Qfloor_resp_le; lra).
  exact Hr.
Qed.

Lemma waveAmplitude_range (host : Host) (finalHeight : Q) :
  0 <= random host 0 -> 0 <= finalHeight ->
  5 <= waveAmplitude host finalHeight
  /\ waveAmplitude host finalHeight <= Qmax 5 (finalHeight * (1 # 15)).
Proof.
  intros Hr Hh. unfold waveAmplitude. split; [apply Q.le_max_l|].
  apply Q.max_lub; [apply Q.le_max_l|].
  eapply Qle_trans; [|apply Q.le_max_r].
  apply Qle_shift_div_r; [lra|].
  assert (0 <= finalHeight * (1 # 15) * (random host 0 * 5)) as P
    by (apply Qmult_le_0_compat; [|apply Qmult_le_0_compat]; lra).
  lra.
Qed.

(** X13.  With a sine within [-1, 1] and random numbers that are not
    negative, for a target between 50 and 2400 high every column of the
    warp starts at or above the top of the target and ends at or below its
    bottom: the offset is at most 0 and the offset plus the pattern height is
    at least the target height. *)
Theorem warp_covers_height (host : Host) (finalWidth finalHeight : Q)
    (text : jsstring) :
  (forall t, - (1) <= sin host t /\ sin host t <= 1) ->
  0 <= random host 0 ->
  50 <= finalHeight -> finalHeight <= 2400 ->
  forall op, In op (applyWatermark host true finalWidth finalHeight text) ->
  exists x offset,
    op = DrawImageSlice
           (as_source (patternSurface finalWidth finalHeight text))
           (inject_Z x) 0 1 (patternHeight finalWidth finalHeight)
           (inject_Z x) (inject_Z offset) 1
           (patternHeight finalWidth finalHeight)
    /\ (offset <= 0)%Z
    /\ finalHeight <= inject_Z offset + patternHeight finalWidth finalHeight.
Proof.
  intros Hsin Hr H50 H2400 op Hin.
  unfold applyWatermark, warpTextColumns in Hin. simpl negb in Hin.
  cbv iota in Hin. apply in_map_iff in Hin as (x & <- & _).
  unfold warpSlice. eexists x, _. split; [reflexivity|].
  destruct (waveAmplitude_range host finalHeight Hr) as [A5 Amax]; [lra|].
  set (A := waveAmplitude host finalHeight) in *.
  destruct (Hsin (waveFrequency host finalWidth * inject_Z x + wavePhase host))
    as [S0 S1].
  set (sn := sin host _) in *.
  assert (A * sn <= A * 1) as W1 by (apply Qmult_le_l; lra).
  assert (A * - (1) <= A * sn) as W0 by (apply Qmult_le_l; lra).
  assert (A <= 5 \/ A <= finalHeight * (1 # 15)) as HA.
  { destruct (Q.max_spec 5 (finalHeight * (1 # 15))) as [[_ Em]|[_ Em]];
      rewrite Em in Amax; [now right|now left]. }
  set (z := - finalHeight * 0.1 + A * sn).
  assert (inject_Z (-400) <= z /\ z <= inject_Z 0) as [Z0 Z1].
  { change (inject_Z (-400)) with (-400). change (inject_Z 0) with 0.
    subst z. destruct HA; split; lra. }
  destruct (round_between z (-400) 0 Z0 Z1) as [R0 R1].
  split; [exact R1|].
  unfold patternHeight. pose proof (extraPadding_min finalWidth finalHeight) as Hp.
  rewrite Zle_Qle in R0, Hp. change (inject_Z (-400)) with (-400) in R0.
  change (inject_Z 80) with 80 in Hp. lra.
Qed.

Lemma warp_covers_height_witness :
  exists x offset,
    DrawImageSlice (as_source (patternSurface 110 125 (of_string "TEST")))
      0 0 1 (patternHeight 110 125) 0 (inject_Z (-12)) 1 (patternHeight 110 125)
    = DrawImageSlice (as_source (patternSurface 110 125 (of_string "TEST")))
        (inject_Z x) 0 1 (patternHeight 110 125)
        (inject_Z x) (inject_Z offset) 1 (patternHeight 110 125)
    /\ (offset <= 0)%Z
    /\ 125 <= inject_Z offset + patternHeight 110 125.
Proof.
  apply (warp_covers_height still_host 110 125 (of_string "TEST")).
  - intros t. split; discriminate.
  - discriminate.
  - discriminate.
  - discriminate.
  - left. reflexivity.
Defined.

(** ** [drawHorizontalTextPattern]: the tiles *)







(** ** [createScribblePattern]: where the strokes run *)

Lemma steps_upto_range (start step bound t : Q) :
  0 < step -> In t (Js.steps_upto start step bound) ->
  start <= t /\ t <= bound.
Proof.
  intros Hs. unfold Js.steps_upto.
  destruct (Qle_bool start bound) eqn:E; [|intros []].
  apply Qle_bool_iff in E. intros Hin.
  apply in_map_iff in Hin as (k & <- & Hk). apply in_seq in Hk.
  set (q := (bound - start) / step) in *.
  assert (0 <= q) as Hq by (apply Qle_shift_div_l; lra).
  assert (0 <= Qfloor q)%Z as Hz
    by (change 0%Z with (Qfloor 0); now apply Qfloor_resp_le).
  assert (Z.of_nat k <= Qfloor q)%Z as Hkz by lia.
  rewrite Zle_Qle in Hkz. pose proof (Qfloor_le q) as Hfl.
  assert (0 <= inject_Z (Z.of_nat k)) as Hk0
    by (change 0 with (inject_Z 0); rewrite <- Zle_Qle; lia).
  assert (inject_Z (Z.of_nat k) * step <= q * step) as Hm
    by (apply Qmult_le_compat_r; lra).
  assert (q * step == bound - start) as Eq by (subst q; field; lra).
  assert (0 <= inject_Z (Z.of_nat k) * step) as Hp
    by (apply Qmult_le_0_compat; lra).
  lra.
Qed.

(** X15.  With a sine within [-1, 1], random numbers in [0, 1] and a base
    scale that is not negative, on a canvas of positive width every stroke of
    [createScribblePattern] is at least 1 wide, starts at [x = 0], stays
    within [0 <= x <= width], and never leaves its base line
    [(i + 1/2) * lineSpacing] by more than [max (10, height / 60)]. *)
Theorem scribble_strokes_banded (host : Host) (rnd : nat) (width height : Q)
    (op : Op) :
  (forall t, - (1) <= sin host t /\ sin host t <= 1) ->
  (forall n, 0 <= random host n /\ random host n <= 1) ->
  0 <= sqrt host (width * height / (800 * 800)) ->
  0 < width ->
  In op (createScribblePattern host rnd width height) ->
  op = FillRect Black 0 0 width height
  \/ exists (i : Z) lineWidth y0 rest,
       op = Stroke White lineWidth ((0, y0) :: rest)
       /\ (0 <= i)%Z /\ 1 <= lineWidth
       /\ forall x y, In (x, y) ((0, y0) :: rest) ->
            let baseY := (inject_Z i + 0.5) * Qmax 5 (height / 150) in
            0 <= x /\ x <= width
            /\ baseY - Qmax 10 (height / 60) <= y
            /\ y <= baseY + Qmax 10 (height / 60).
Proof.
  intros Hsin Hrnd Hsqrt Hw. unfold createScribblePattern.
  intros [<-|Hin]; [now left|]. right.
  apply in_map_iff in Hin as (i & <- & Hi). apply count_below_spec in Hi as [Hi _].
  set (r := (rnd + 3 * Z.to_nat i)%nat).
  set (ls := Qmax 5 (height / 150)). set (M := Qmax 10 (height / 60)).
  set (amp := M * (0.5 + random host r * 0.5)).
  set (freq := Qmax 0.002 (15 / width)).
  set (ph := random host (r + 1) * 2 * PI host).
  eexists i, _, _, _. split; [reflexivity|]. split; [exact Hi|].
  assert (10 <= M) as HM by apply Q.le_max_l.
  destruct (Hrnd r) as [R0 R1].
  assert (0 < amp /\ amp <= M) as [A0 A1].
  { subst amp. split.
    - assert (M * 0.5 <= M * (0.5 + random host r * 0.5)) as H
        by (apply Qmult_le_l; lra). lra.
    - assert (M * (0.5 + random host r * 0.5) <= M * 1) as H
        by (apply Qmult_le_l; lra). lra. }
  split.
  - pose proof (Q.le_max_l 1 (width / 800)). destruct (Hrnd (r + 2)%nat) as [? _].
    assert (0 <= random host (r + 2)
                 * (sqrt host (width * height / (800 * 800)) * 0.5)) as P.
    { apply Qmult_le_0_compat; [assumption|].
      apply Qmult_le_0_compat; [exact Hsqrt|lra]. }
    lra.
  - assert (forall x, let y := inject_Z i * ls + ls / 2
                               + amp * sin host (ph + freq * x) in
              (inject_Z i + 0.5) * ls - M <= y
              /\ y <= (inject_Z i + 0.5) * ls + M) as Hy.
    { intros x. cbv zeta. destruct (Hsin (ph + freq * x)) as [S0 S1].
      set (sn := sin host _) in *.
      assert (amp * sn <= amp * 1) as U by (apply Qmult_le_l; lra).
      assert (amp * - (1) <= amp * sn) as L by (apply Qmult_le_l; lra).
      assert (inject_Z i * ls + ls / 2 == (inject_Z i + 0.5) * ls) as E by field.
      rewrite E. split; lra. }
    intros x y [[= <- <-]|Hin]; cbv zeta.
    + split; [lra|]. split; [lra|]. apply (Hy 0).
    + apply in_map_iff in Hin as (x' & [= <- <-] & Hx).
      apply steps_upto_range in Hx as [X0 X1].
      * split; [lra|]. split; [lra|]. apply (Hy x').
      * pose proof (Q.le_max_l 2 (width / 500)). lra.
Qed.

Lemma scribble_strokes_banded_witness :
  let op := nth 1 (createScribblePattern still_host 0 110 125)
                (FillRect Black 0 0 0 0) in
  op = FillRect Black 0 0 110 125
  \/ exists (i : Z) lineWidth y0 rest,
       op = Stroke White lineWidth ((0, y0) :: rest)
       /\ (0 <= i)%Z /\ 1 <= lineWidth
       /\ forall x y, In (x, y) ((0, y0) :: rest) ->
            let baseY := (inject_Z i + 0.5) * Qmax 5 (125 / 150) in
            0 <= x /\ x <= 110
            /\ baseY - Qmax 10 (125 / 60) <= y
            /\ y <= baseY + Qmax 10 (125 / 60).
Proof.
  apply (scribble_strokes_banded still_host 0 110 125).
  - intros t. split; discriminate.
  - intros n. split; discriminate.
  - discriminate.
  - reflexivity.
  - right. left. reflexivity.
Defined.

(** ** More on the grayscale mask *)

(** X16.  Masking keeps the length of the pixel data and every alpha
    channel, whatever the mask. *)
Theorem grayMask_keeps_alpha (maskData data : list byte) :
  length (grayMask maskData data) = length data
  /\ forall p, grayMask maskData data !! (4 * p + 3)%nat
               = data !! (4 * p + 3)%nat.
Proof.
  split; [apply grayMask_length|]. intros p.
  rewrite grayMask_lookup. unfold grayAt.
  assert ((4 * p + 3) mod 4 = 3)%nat as ->.
  { pose proof (Nat.div_mod_eq (4 * p + 3) 4).
    assert ((4 * p + 3) mod 4 < 4)%nat by (apply Nat.mod_upper_bound; lia).
    lia. }
  now rewrite andb_false_r.
Qed.

(** X17.  Under a mask without a black pixel (no red channel equal to 0, as
    for an all-white or an empty mask) the data is left exactly as it is. *)
Theorem grayMask_white (maskData data : list byte) :
  (forall p, maskData !! (4 * p)%nat <> Some x00) ->
  grayMask maskData data = data.
Proof.
  intros Hw. apply list_eq. intros j. rewrite grayMask_lookup. unfold grayAt.
  specialize (Hw (j / 4)%nat). apply is_zero_false in Hw. now rewrite Hw.
Qed.

Lemma grayMask_white_witness :
  grayMask [xff; xff; xff; xff] [x0a; x14; x1e; x28] = [x0a; x14; x1e; x28].
Proof.
  apply grayMask_white. intros [|p] E.
  - discriminate E.
  - apply lookup_lt_Some in E. simpl in E. lia.
Defined.

Lemma regray (d0 d1 d2 : option byte) :
  let G := toUint8Clamp (gray_of d0 d1 d2) in
  toUint8Clamp (gray_of (over d0 G) (over d1 G) (over d2 G)) = G.
Proof.
  destruct d0, d1, d2; try reflexivity. simpl. apply gray_of_gray.
Qed.

(** What a mask does to data that another mask was applied to. *)
Lemma grayAt_after (m m' data : list byte) (j : nat) :
  grayAt m (grayMask m' data) j
  = if is_zero (m !! (4 * (j / 4))%nat) && (j mod 4 <? 3)%nat then
      over (data !! j)
        (toUint8Clamp
           (gray_of (data !! (4 * (j / 4))%nat)
                    (data !! (4 * (j / 4) + 1)%nat)
                    (data !! (4 * (j / 4) + 2)%nat)))
    else grayAt m' data j.
Proof.
  unfold grayAt at 1. rewrite !grayMask_lookup.
  destruct (is_zero (m !! (4 * (j / 4))%nat) && (j mod 4 <? 3)%nat) eqn:E;
    [|reflexivity].
  apply andb_true_iff in E as [_ Ec]. apply Nat.ltb_lt in Ec.
  pose proof (Nat.div_mod_eq j 4) as Hj.
  assert (forall c, (c < 3)%nat -> ((4 * (j / 4) + c) / 4 = j / 4)%nat) as Hdiv.
  { intros c Hc. pose proof (Nat.div_mod_eq (4 * (j / 4) + c) 4).
    assert ((4 * (j / 4) + c) mod 4 < 4)%nat
      by (apply Nat.mod_upper_bound; lia).
    lia. }
  pose proof (Hdiv 0%nat ltac:(lia)) as H0. rewrite Nat.add_0_r in H0.
  rewrite (grayAt_block m' data (j / 4) j eq_refl).
  rewrite (grayAt_block m' data (j / 4) _ H0).
  rewrite (grayAt_block m' data (j / 4) _ (Hdiv 1%nat ltac:(lia))).
  rewrite (grayAt_block m' data (j / 4) _ (Hdiv 2%nat ltac:(lia))).
  destruct (is_zero (m' !! (4 * (j / 4))%nat)); rewrite ?andb_true_l, ?andb_false_l.
  - repeat (case_bool_decide; [|lia]). rewrite regray.
    now destruct (data !! j).
  - reflexivity.
Qed.

(** X18.  Two masks can be applied in either order: the result is the
    same, each pixel being grayed once if either mask is black there. *)
Theorem grayMask_commute (m1 m2 data : list byte) :
  grayMask m1 (grayMask m2 data) = grayMask m2 (grayMask m1 data).
Proof.
  apply list_eq. intros j. rewrite !grayMask_lookup, !grayAt_after.
  unfold grayAt.
  destruct (is_zero (m1 !! (4 * (j / 4))%nat)),
    (is_zero (m2 !! (4 * (j / 4))%nat)), (j mod 4 <? 3)%nat; reflexivity.
Qed.

(** X19.  [createScribblePattern] fills the mask and then draws at most 180
    strokes, however high the canvas; on a canvas less than 5 high it draws
    none, and the mask is the black fill alone. *)
Theorem scribble_stroke_count (host : Host) (rnd : nat) (width height : Q) :
  0 <= height ->
  let ops := createScribblePattern host rnd width height in
  (1 <= length ops <= 181)%nat
  /\ (height < 5 -> ops = [FillRect Black 0 0 width height]).
Proof.
  intros Hh ops. subst ops. unfold createScribblePattern.
  set (ls := Qmax 5 (height / 150)).
  set (n := Js.floor (height / ls)).
  assert (5 <= ls) as L5 by apply Q.le_max_l.
  assert (height / 150 <= ls) as Lh by apply Q.le_max_r.
  assert (height / 150 * 150 == height) as E150 by field.
  assert (0 <= height / ls /\ height / ls <= 150) as [Q0 Q1].
  { split; [apply Qle_shift_div_l; lra|apply Qle_shift_div_r; lra]. }
  assert (0 <= n <= 150)%Z as Hn.
  { subst n. unfold Js.floor. split.
    - change 0%Z with (Qfloor 0). now apply Qfloor_resp_le.
    - change 150%Z with (Qfloor 150). now apply Qfloor_resp_le. }
  cbn [length]. rewrite length_map. unfold Js.count_below.
  rewrite length_map, length_seq. split.
  - assert (Qceiling (inject_Z n * 1.2) <= 180)%Z as Hc.
    { change 180%Z with (Qceiling 180). apply Qceiling_resp_le.
      destruct Hn as [_ Hn]. rewrite Zle_Qle in Hn.
      change (inject_Z 150) with 150 in Hn. lra. }
    lia.
  - intros H5. assert (n = 0%Z) as ->.
    { subst n. unfold Js.floor. apply Qfloor_unique.
      - exact Q0.
      - change (inject_Z 0 + 1) with 1. apply Qlt_shift_div_r; lra. }
    reflexivity.
Qed.

Lemma scribble_stroke_count_witness :
  createScribblePattern still_host 0 3 (15 / 4)
  = [FillRect Black 0 0 3 (15 / 4)].
Proof.
  destruct (scribble_stroke_count still_host 0 3 (15 / 4)) as [_ H];
    [discriminate|].
  apply H. reflexivity.
Defined.
